(** * Cinematic canvas: a shallow embedding of the frame renderer

    The TypeScript sources [src/app/components/CinematicCanvas.tsx] and
    [src/app/components/HudOverlay.tsx] are embedded function by function.

    Numbers.  A JavaScript [number] is modelled as a real number: the
    statements below are about the closed-form time-to-pixel mappings, not
    about IEEE rounding.  Loop counters and array indices are [nat]; they are
    injected into the reals with [INR] where the source mixes them with
    fractional values.

    Canvas.  The 2D context is modelled by the trace of the calls made on
    it, in program order: a draw pass denotes the list of calls it makes, and
    sequencing two statements appends their traces.

    Store.  Where a property is about what a pass may change, the same
    source is read a second time as a program on a store that holds the
    context, the scene object and the two layout arrays (module [Stateful]),
    and the two readings are proved to agree. *)

From Stdlib Require Import Reals Lra Lia List ZArith String Bool.
Import ListNotations.
Open Scope string_scope.
Open Scope list_scope.
Open Scope R_scope.

(* ------------------------------------------------------------------ *)
(** ** JavaScript arithmetic on reals *)

Module Js.

(** Truncation towards zero, the quotient used by the [%] operator. *)
Definition trunc (x : R) : Z :=
  if Rle_dec 0 x then Int_part x else (- Int_part (- x))%Z.

(** [x % y]: the remainder takes the sign of the dividend. *)
Definition rem (x y : R) : R := x - y * IZR (trunc (x / y)).

(** [Math.floor] *)
Definition floor (x : R) : Z := Int_part x.

(** [Math.abs], [Math.max], [Math.min] *)
Definition abs (x : R) : R := Rabs x.
Definition max (a b : R) : R := Rmax a b.
Definition min (a b : R) : R := Rmin a b.

(** [a < b] and [a > b] as tests of a conditional *)
Definition ltb (a b : R) : bool := if Rlt_dec a b then true else false.
Definition gtb (a b : R) : bool := ltb b a.
Definition geb (a b : R) : bool := if Rle_dec b a then true else false.

End Js.

Infix "%%" := Js.rem (at level 40, left associativity) : R_scope.

(* ------------------------------------------------------------------ *)
(** ** CinematicCanvas.tsx: layout records and scalar helpers *)

Record Building := mkBuilding {
  b_x : R;
  b_width : R;
  b_height : R;
  b_lightSeed : R
}.

Record Billboard := mkBillboard {
  bb_x : R;
  bb_y : R;
  bb_width : R;
  bb_height : R;
  bb_rotation : R
}.

Definition TOTAL_DURATION : R := 45000.

(** Body of the [for] loop of [generateBuildings] at index [i]. *)
Definition buildingSeed (i : nat) : R := sin (INR i * 2245.929) * 10000.

Definition buildingAt (count i : nat) : Building :=
  let seed := buildingSeed i in
  let x := (INR i / INR count) * 1.05 - 0.05 + (seed %% 0.03) in
  let width := 0.03 + ((seed * 1.3) %% 0.05) in
  let height := 0.3 + ((seed * 3.7) %% 0.7) in
  mkBuilding x width height (Js.abs seed).

(** [for (let i = 0; i < count; i += 1) buildings.push(...)].  A negative
    [count] never enters the loop. *)
Definition generateBuildings (count : Z) : list Building :=
  let n := Z.to_nat count in
  map (buildingAt n) (seq 0 n).

Definition billboardAt (index : nat) : Billboard :=
  let seed := cos (INR index * 512.42) * 9999 in
  mkBillboard
    (0.1 + ((Js.abs seed %% 0.8) * 0.8))
    (0.1 + (((seed * 0.53) %% 0.6) * 0.6))
    (0.1 + ((seed * 1.2) %% 0.2))
    (0.08 + ((seed * 0.91) %% 0.12))
    ((seed %% PI) / 6).

Definition generateBillboards : list Billboard :=
  map billboardAt (seq 0 6).

Definition lerp (a b t : R) : R := a + (b - a) * t.

Definition easeInOut (t : R) : R :=
  if Js.ltb t 0.5 then 4 * t * t * t else 1 - (-2 * t + 2) ^ 3 / 2.

Definition clamp (value lo hi : R) : R := Js.min hi (Js.max lo value).

Definition wrapTime (timestamp loopLength : R) : R :=
  ((timestamp %% loopLength) + loopLength) %% loopLength.

(* ------------------------------------------------------------------ *)
(** ** The 2D drawing context

    Style strings built by template literals are kept structured: the
    interpolated numbers are the arguments of [rgba] and [hsla]. *)

Inductive Color :=
| rgba (r g b a : R)
| hsla (h s l a : R).

Inductive GradientShape :=
| LinearShape (x0 y0 x1 y1 : R)
| RadialShape (x0 y0 r0 x1 y1 r1 : R).

Record CanvasGradient := mkGradient {
  shape : GradientShape;
  stops : list (R * Color)
}.

Definition createLinearGradient (x0 y0 x1 y1 : R) : CanvasGradient :=
  mkGradient (LinearShape x0 y0 x1 y1) [].

Definition createRadialGradient (x0 y0 r0 x1 y1 r1 : R) : CanvasGradient :=
  mkGradient (RadialShape x0 y0 r0 x1 y1 r1) [].

Definition addColorStop (g : CanvasGradient) (offset : R) (c : Color)
  : CanvasGradient :=
  mkGradient (shape g) (stops g ++ [(offset, c)]).

Inductive Style :=
| SColor (c : Color)
| SGradient (g : CanvasGradient).

Coercion SColor : Color >-> Style.
Coercion SGradient : CanvasGradient >-> Style.

(** [`${weight} ${px}px family, ...`] *)
Record Font := mkFont {
  weight : string;
  px : R;
  families : list string
}.

(** One call on the context, or one assignment to one of its properties. *)
Inductive Call :=
| Save
| Restore
| Translate (x y : R)
| Scale (x y : R)
| Rotate (angle : R)
| ClearRect (x y w h : R)
| FillRect (x y w h : R)
| StrokeRect (x y w h : R)
| BeginPath
| ClosePath
| MoveTo (x y : R)
| LineTo (x y : R)
| QuadraticCurveTo (cpx cpy x y : R)
| Arc (x y radius startAngle endAngle : R)
| Ellipse (x y radiusX radiusY rotation startAngle endAngle : R)
| Fill
| Stroke
| FillText (text : string) (x y : R)
| SetFillStyle (s : Style)
| SetStrokeStyle (s : Style)
| SetLineWidth (w : R)
| SetGlobalAlpha (a : R)
| SetGlobalCompositeOperation (op : string)
| SetFont (f : Font)
| SetTextAlign (a : string)
| SetShadowColor (c : Color)
| SetShadowBlur (b : R).

(** What a piece of drawing code does to the context: the calls it makes, in
    program order.  Statements are sequenced with [;;]. *)
Definition Draw := list Call.

Definition skip : Draw := [].
Definition call (c : Call) : Draw := [c].
Coercion call : Call >-> Draw.

Definition andThen (a b : Draw) : Draw := a ++ b.

Notation "a ;; b" := (andThen a b) (at level 61, right associativity).

(** [for (let i = from; i < to; i += 1) body(i)] *)
Definition forRange (from to : nat) (body : nat -> Draw) : Draw :=
  flat_map body (seq from (to - from)).

(** [items.forEach((item, index) => body(item, index))] *)
Fixpoint forEachFrom {A : Type} (index : nat) (items : list A)
                     (body : A -> nat -> Draw) : Draw :=
  match items with
  | [] => skip
  | item :: rest => body item index ;; forEachFrom (S index) rest body
  end.

Definition forEach {A : Type} (items : list A) (body : A -> nat -> Draw) : Draw :=
  forEachFrom 0 items body.

(** Number of iterations of [for (let x = 0; x <= bound; x += step)]. *)
Definition stepsUpTo (bound step : R) : nat :=
  if Rle_dec 0 bound then Z.to_nat (Js.floor (bound / step) + 1) else 0%nat.

Record SceneContext := mkScene {
  width : R;
  height : R;
  t : R;
  buildings : list Building;
  billboards : list Billboard
}.

(* ------------------------------------------------------------------ *)
(** ** Draw passes *)

Definition drawSkies (scene : SceneContext) : Draw :=
  let '(mkScene width height t _ _) := scene in
  let gradient := createLinearGradient 0 0 0 height in
  let baseShift := sin (t * 0.1) * 0.1 in
  let gradient := addColorStop gradient 0 (rgba (10 + baseShift * 50) 10 60 1) in
  let gradient := addColorStop gradient 0.5 (rgba 5 10 30 0.95) in
  let gradient := addColorStop gradient 1 (rgba 0 0 8 1) in
  SetFillStyle gradient ;;
  FillRect 0 0 width height ;;
  (* Stars / sparks *)
  forRange 0 120 (fun i =>
    let p := (INR i * 97.77) %% 1 in
    let x := p * width in
    let y := ((sin (INR i * 42.12 + t * 0.3) + 1) / 2) * height * 0.5 in
    let size := ((cos (INR i * 12.12 + t) + 1) / 2) * 1.5 + 0.5 in
    SetFillStyle (rgba (150 + INR (i mod 50)) (80 + INR (i mod 40)) 255
                       (0.5 + ((sin (t * 2 + INR i) + 1) / 4))) ;;
    BeginPath ;;
    Arc x y size 0 (PI * 2) ;;
    call Fill).

Definition drawCity (scene : SceneContext) : Draw :=
  let '(mkScene width height t buildings billboards) := scene in
  let baseline := height * 0.68 in
  Save ;;
  Translate 0 baseline ;;
  Scale 1 1 ;;
  forEach buildings (fun building index =>
    let x := b_x building * width in
    let w := b_width building * width in
    let h := - b_height building * height in
    let offset := sin (t * 0.5 + b_lightSeed building) * 20 in
    let buildingGrad := createLinearGradient 0 h 0 0 in
    let buildingGrad :=
      addColorStop buildingGrad 0 (rgba (20 + INR index * 3) 10 60 0.9) in
    let buildingGrad :=
      addColorStop buildingGrad 0.5 (rgba (10 + INR index * 2) 10 40 0.9) in
    let buildingGrad := addColorStop buildingGrad 1 (rgba 10 8 30 0.8) in
    SetFillStyle buildingGrad ;;
    FillRect x h w (- h) ;;
    let windowRows := 8%nat in
    let windowCols := Z.max 4 (Js.floor (w / 12)) in
    let flicker := 0.3 + (sin (t * 2 + INR index) + 1) / 2 in
    forRange 1 windowRows (fun r =>
      forRange 0 (Z.to_nat windowCols) (fun c =>
        let wx := x + 6 + INR c * (w / IZR windowCols) in
        let wy := h + INR r * ((- h) / INR windowRows) in
        let windowOn := negb (((r + c + index) mod 3) =? 0)%nat in
        let intensity := if windowOn then flicker else 0.1 in
        SetFillStyle (rgba (120 + intensity * 80) (60 + intensity * 120)
                           (20 + intensity * 160) (0.4 + intensity * 0.3)) ;;
        call (FillRect wx wy 4 (8 + offset * 0.02))))) ;;
  (* Neon billboards *)
  forEach billboards (fun board index =>
    let x := bb_x board * width in
    let y := - bb_y board * height * 0.6 in
    let w := bb_width board * width in
    let h := bb_height board * height in
    Save ;;
    Translate (x + w / 2) (y - h / 2) ;;
    Rotate (bb_rotation board + sin (t * 0.5 + INR index) * 0.02) ;;
    let glow := createLinearGradient (- w / 2) (- h / 2) (w / 2) (h / 2) in
    let glow :=
      addColorStop glow 0
        (rgba 0 (140 + INR index * 10) (255 - INR index * 20) 0.3) in
    let glow :=
      addColorStop glow 1
        (rgba 255 (60 + INR index * 20) (180 - INR index * 10) 0.7) in
    SetFillStyle glow ;;
    FillRect (- w / 2) (- h / 2) w h ;;
    SetLineWidth (2 + sin (t * 6 + INR index) * 0.5) ;;
    SetStrokeStyle (rgba 255 255 255 0.8) ;;
    StrokeRect (- w / 2) (- h / 2) w h ;;
    call Restore) ;;
  call Restore.

Definition drawShockwave (scene : SceneContext) : Draw :=
  let '(mkScene width height t _ _) := scene in
  let shockStart := 5 in
  let shockEnd := 11 in
  if Js.ltb t shockStart then skip else
  let localT := clamp ((t - shockStart) / (shockEnd - shockStart)) 0 1 in
  let eased := easeInOut localT in
  let radius := lerp 0 (Js.max width height * 1.2) eased in
  let centerX := width / 2 in
  let centerY := height * 0.65 in
  let gradient :=
    createRadialGradient centerX centerY (radius * 0.1) centerX centerY radius in
  let gradient := addColorStop gradient 0 (rgba 255 220 120 0.8) in
  let gradient := addColorStop gradient 0.3 (rgba 255 120 20 0.35) in
  let gradient := addColorStop gradient 0.6 (rgba 50 120 255 0.25) in
  let gradient := addColorStop gradient 1 (rgba 0 0 0 0) in
  SetFillStyle gradient ;;
  BeginPath ;;
  Arc centerX centerY radius 0 (PI * 2) ;;
  call Fill.

Definition drawArena (scene : SceneContext) : Draw :=
  let '(mkScene width height t _ billboards) := scene in
  let arenaStart := 9 in
  let arenaEnd := 20 in
  if Js.ltb t arenaStart then skip else
  let localT := clamp ((t - arenaStart) / (arenaEnd - arenaStart)) 0 1 in
  let pulse := sin (t * 5) * 0.5 + 0.5 in
  (* Neon floor grid *)
  let gridOpacity := 0.25 + localT * 0.6 in
  Save ;;
  SetGlobalAlpha gridOpacity ;;
  SetStrokeStyle (rgba 0 255 240 (0.4 + pulse * 0.2)) ;;
  SetLineWidth 1.5 ;;
  let floorY := height * 0.72 in
  forRange 0 20 (fun i =>
    let x := (INR i / 19) * width in
    BeginPath ;;
    MoveTo x floorY ;;
    LineTo (width / 2 + (x - width / 2) * 1.6) height ;;
    call Stroke) ;;
  forRange 0 12 (fun j =>
    let y := floorY + (INR j / 12) * (height - floorY) in
    BeginPath ;;
    MoveTo 0 y ;;
    LineTo width (y + (sin (t + INR j) * 20)) ;;
    call Stroke) ;;
  Restore ;;
  (* Fireworks burst arcs *)
  let bursts := 6%nat in
  forRange 0 bursts (fun i =>
    let phase := (t * 0.8 + INR i) %% 1 in
    let alpha := 1 - phase in
    let cx := (0.1 + 0.8 * ((INR i * 97.31) %% 1)) * width in
    let cy := height * (0.2 + ((INR i * 0.17) %% 0.4)) in
    let radius := 80 + phase * 220 in
    SetStrokeStyle (rgba 255 (60 + INR i * 25) (200 - INR i * 20)
                         (alpha * (0.6 + pulse * 0.2))) ;;
    SetLineWidth 2.5 ;;
    BeginPath ;;
    Arc cx cy radius 0 (PI * 2) ;;
    call Stroke) ;;
  (* Billboards text highlight *)
  Save ;;
  SetFont (mkFont "bold" (Js.max 28 (width * 0.03))
                  ["Bebas Neue"; "Oswald"; "sans-serif"]) ;;
  SetTextAlign "center" ;;
  SetFillStyle (rgba 255 80 180 (0.6 + localT * 0.4)) ;;
  SetShadowColor (rgba 0 255 220 (0.7 * (0.4 + pulse * 0.6))) ;;
  SetShadowBlur (30 + 40 * pulse) ;;
  FillText "RONALDO VS THE WORLD" (width / 2) (height * 0.12) ;;
  Restore ;;
  (* Animated billboard beams *)
  forEach billboards (fun board index =>
    let beamProgress := (localT * 1.5 + INR index * 0.1 + t * 0.2) %% 1 in
    let x := bb_x board * width in
    let y := height * (0.4 + bb_y board * 0.4) in
    let w := bb_width board * width * (0.6 + localT * 0.8) in
    let h := bb_height board * height * (0.6 + localT * 0.7) in
    let grad := createLinearGradient x y x (y - h * 1.8) in
    let grad := addColorStop grad 0 (rgba 0 255 220 0) in
    let grad :=
      addColorStop grad (clamp (beamProgress - 0.1) 0 1) (rgba 0 255 220 0) in
    let grad :=
      addColorStop grad (clamp beamProgress 0 1) (rgba 255 80 220 0.55) in
    let grad :=
      addColorStop grad (clamp (beamProgress + 0.05) 0 1) (rgba 255 140 20 0.2) in
    let grad := addColorStop grad 1 (rgba 0 0 0 0) in
    SetFillStyle grad ;;
    call (FillRect (x - w / 2) (y - h * 1.8) w (h * 1.8))).

Record Portal := mkPortal {
  portal_x : R;
  portal_y : R;
  portal_hue : R;
  portal_label : string
}.

Definition drawPortals (scene : SceneContext) : Draw :=
  let '(mkScene width height t _ _) := scene in
  let portalStart := 18 in
  let portalEnd := 31 in
  if Js.ltb t portalStart then skip else
  let portalDuration := portalEnd - portalStart in
  let local := clamp ((t - portalStart) / portalDuration) 0 1 in
  let pulse := sin (t * 4) * 0.5 + 0.5 in
  let positions :=
    [ mkPortal (width * 0.22) (height * 0.45) 210 "MESSI";
      mkPortal (width * 0.78) (height * 0.46) 140 "NEYMAR";
      mkPortal (width * 0.35) (height * 0.25) 280 "MBAPPÃ‰";
      mkPortal (width * 0.65) (height * 0.2) 20 "HAALAND" ] in
  forEach positions (fun portal index =>
    let appearDelay := INR index * 0.5 in
    let progress :=
      clamp ((t - portalStart - appearDelay) / (portalDuration - appearDelay))
            0 1 in
    let radius := 90 + progress * 70 in
    Save ;;
    SetGlobalCompositeOperation "lighter" ;;
    SetLineWidth (4 + pulse * 3) ;;
    SetStrokeStyle (hsla (portal_hue portal) 90 (50 + pulse * 20)
                         (0.5 + progress * 0.4)) ;;
    BeginPath ;;
    Arc (portal_x portal) (portal_y portal) radius 0 (PI * 2) ;;
    Stroke ;;
    (* inner vortex *)
    SetLineWidth 2 ;;
    SetStrokeStyle (hsla (portal_hue portal) 100 (70 + pulse * 10) 0.6) ;;
    let swirlCount := 6%nat in
    forRange 0 swirlCount (fun i =>
      let angle := (INR i / INR swirlCount) * PI * 2 + t * 0.8 in
      BeginPath ;;
      Arc (portal_x portal + cos angle * radius * 0.3)
          (portal_y portal + sin angle * radius * 0.3)
          (radius * 0.4)
          angle
          (angle + PI / 1.6) ;;
      call Stroke) ;;
    (* silhouettes *)
    SetFillStyle (hsla (portal_hue portal) 100 (25 + pulse * 20)
                       (0.6 + progress * 0.3)) ;;
    BeginPath ;;
    Ellipse (portal_x portal) (portal_y portal)
            (30 + progress * 20) (60 + progress * 30) 0 0 (PI * 2) ;;
    Fill ;;
    SetFillStyle (rgba 10 10 12 0.9) ;;
    BeginPath ;;
    Arc (portal_x portal) (portal_y portal - 50 - progress * 10)
        (14 + progress * 4) 0 (PI * 2) ;;
    Fill ;;
    SetFillStyle (rgba 255 255 255 0.8) ;;
    SetFont (mkFont "600" (Js.max 16 (width * 0.012))
                    ["Rajdhani"; "sans-serif"]) ;;
    SetTextAlign "center" ;;
    FillText (portal_label portal) (portal_x portal)
             (portal_y portal + 90 + progress * 40) ;;
    call Restore).

Record Monster := mkMonster {
  monster_x : R;
  monster_y : R;
  monster_scale : R;
  monster_hue : R
}.

Definition drawMonsters (scene : SceneContext) : Draw :=
  let '(mkScene width height t _ _) := scene in
  let monsterStart := 24 in
  let monsterEnd := 44 in
  if Js.ltb t monsterStart then skip else
  let monsterPhase :=
    clamp ((t - monsterStart) / (monsterEnd - monsterStart)) 0 1 in
  let monsters :=
    [ mkMonster (width * 0.12) (height * 0.5) 1.2 190;
      mkMonster (width * 0.88) (height * 0.52) 1.1 310;
      mkMonster (width * 0.5) (height * 0.18) 1.5 40 ] in
  forEach monsters (fun monster index =>
    let appearDelay := INR index * 0.8 in
    let progress :=
      clamp ((t - monsterStart - appearDelay) / (monsterEnd - monsterStart))
            0 1 in
    let size := 120 * monster_scale monster * (0.5 + progress * 0.6) in
    Save ;;
    SetGlobalAlpha (0.6 + progress * 0.4) ;;
    let grad :=
      createRadialGradient (monster_x monster) (monster_y monster) (size * 0.3)
                           (monster_x monster) (monster_y monster) size in
    let grad := addColorStop grad 0 (hsla (monster_hue monster) 80 70 0.9) in
    let grad := addColorStop grad 0.6 (hsla (monster_hue monster) 90 40 0.7) in
    let grad := addColorStop grad 1 (rgba 0 0 0 0) in
    SetFillStyle grad ;;
    BeginPath ;;
    Ellipse (monster_x monster) (monster_y monster) size (size * 0.75)
            0 0 (PI * 2) ;;
    Fill ;;
    (* Armor plates *)
    SetLineWidth 4 ;;
    SetStrokeStyle (hsla (monster_hue monster) 90 80 0.7) ;;
    BeginPath ;;
    MoveTo (monster_x monster - size * 0.7) (monster_y monster) ;;
    QuadraticCurveTo (monster_x monster) (monster_y monster - size * 0.8)
                     (monster_x monster + size * 0.7) (monster_y monster) ;;
    QuadraticCurveTo (monster_x monster) (monster_y monster + size * 0.8)
                     (monster_x monster - size * 0.7) (monster_y monster) ;;
    Stroke ;;
    (* Eye core *)
    SetFillStyle (rgba 255 80 60 (0.8 + sin (t * 6 + INR index) * 0.2)) ;;
    BeginPath ;;
    Arc (monster_x monster) (monster_y monster - size * 0.1) (size * 0.18)
        0 (PI * 2) ;;
    Fill ;;
    (* Laser beams *)
    let beamCount := 3%nat in
    forRange 0 beamCount (fun i =>
      let offsetAngle := ((INR i / INR beamCount) * PI / 4) - PI / 8 in
      let beamProgress := (t * 1.4 + INR i + INR index) %% 1 in
      let beamIntensity := 0.4 + monsterPhase * 0.6 in
      SetStrokeStyle (rgba 255 (120 + INR index * 40) 50 beamIntensity) ;;
      SetLineWidth (3 + sin (t * 8 + INR i) * 1.2) ;;
      BeginPath ;;
      MoveTo (monster_x monster) (monster_y monster - size * 0.1) ;;
      let beamLength := height * (0.4 + beamProgress * 0.6) in
      LineTo
        (monster_x monster + cos (offsetAngle + beamProgress * PI) * beamLength)
        (monster_y monster + sin (offsetAngle + beamProgress * PI) * beamLength) ;;
      call Stroke) ;;
    call Restore).

(* ------------------------------------------------------------------ *)
(** ** Local constants of [drawHero]

    [drawHero] binds these with [const]; they are named here so that the
    statements about the held ball can refer to them. *)

Definition baseSize : R := 160.

(** [const pulse = Math.sin(t * 8) * 0.5 + 0.5] *)
Definition heroPulse (t : R) : R := sin (t * 8) * 0.5 + 0.5.

(** [const holdingPhase = t < 5 ? clamp(t / 5, 0, 1) : t < 40 ? 1
      : clamp(1 - (t - 40) / 5, 0, 1)] *)
Definition holdingPhase (t : R) : R :=
  if Js.ltb t 5 then clamp (t / 5) 0 1
  else if Js.ltb t 40 then 1
  else clamp (1 - (t - 40) / 5) 0 1.

(** [const ballX = heroX + (t > 5 ? baseSize * 0.9 *
      Math.sin(clamp((t - 5) / 0.5, 0, 1) * Math.PI) : baseSize * 0.4)] *)
Definition ballX (heroX t : R) : R :=
  heroX + (if Js.gtb t 5
           then baseSize * 0.9 * sin (clamp ((t - 5) / 0.5) 0 1 * PI)
           else baseSize * 0.4).

(** [const ballRadius = baseSize * (0.16 + pulse * 0.02) * holdingPhase] *)
Definition ballRadius (t : R) : R :=
  baseSize * (0.16 + heroPulse t * 0.02) * holdingPhase t.

Definition drawHero (scene : SceneContext) : Draw :=
  let '(mkScene width height t _ _) := scene in
  let heroX := width / 2 in
  let heroY := height * 0.65 in
  let pulse := heroPulse t in
  (* Lightning arcs *)
  (if Js.gtb t 28 then
     let sparks := 12%nat in
     Save ;;
     SetGlobalAlpha (0.4 + pulse * 0.3) ;;
     forRange 0 sparks (fun i =>
       let angle := (INR i / INR sparks) * PI * 2 + t * 2 in
       let length := baseSize * (0.6 + sin (t * 4 + INR i) * 0.4) in
       SetStrokeStyle (rgba 120 220 255 (0.6 + pulse * 0.3)) ;;
       SetLineWidth 1.6 ;;
       BeginPath ;;
       MoveTo heroX (heroY - baseSize * 0.7) ;;
       LineTo (heroX + cos angle * length)
              (heroY - baseSize * 0.7 + sin angle * length) ;;
       call Stroke) ;;
     call Restore
   else skip) ;;
  (* Body glow *)
  let glowRadius := baseSize * (0.45 + pulse * 0.1) in
  let glow :=
    createRadialGradient heroX heroY (glowRadius * 0.2) heroX heroY glowRadius in
  let glow := addColorStop glow 0 (rgba 255 210 120 0.9) in
  let glow := addColorStop glow 0.4 (rgba 255 120 40 0.7) in
  let glow := addColorStop glow 1 (rgba 0 0 0 0) in
  SetFillStyle glow ;;
  BeginPath ;;
  Arc heroX heroY glowRadius 0 (PI * 2) ;;
  Fill ;;
  (* Hero silhouette *)
  SetFillStyle (rgba 15 20 30 0.95) ;;
  BeginPath ;;
  Ellipse heroX (heroY - baseSize * 0.2) (baseSize * 0.22) (baseSize * 0.55)
          0 0 (PI * 2) ;;
  Fill ;;
  (* Torso armor highlight *)
  SetFillStyle (rgba 255 215 120 (0.6 + pulse * 0.4)) ;;
  BeginPath ;;
  MoveTo (heroX - baseSize * 0.2) (heroY - baseSize * 0.05) ;;
  QuadraticCurveTo heroX (heroY - baseSize * 0.45)
                   (heroX + baseSize * 0.2) (heroY - baseSize * 0.05) ;;
  QuadraticCurveTo heroX (heroY + baseSize * 0.1)
                   (heroX - baseSize * 0.2) (heroY - baseSize * 0.05) ;;
  Fill ;;
  (* Head *)
  SetFillStyle (rgba 230 230 240 0.95) ;;
  BeginPath ;;
  Arc heroX (heroY - baseSize * 0.6) (baseSize * 0.12) 0 (PI * 2) ;;
  Fill ;;
  (* Golden ball *)
  let ballX := ballX heroX t in
  let ballY := heroY - baseSize * 0.35 in
  let ballRadius := ballRadius t in
  if Js.gtb ballRadius 0 then
    let ballGradient :=
      createRadialGradient ballX ballY (ballRadius * 0.3) ballX ballY ballRadius in
    let ballGradient := addColorStop ballGradient 0 (rgba 255 220 140 1) in
    let ballGradient := addColorStop ballGradient 0.4 (rgba 255 180 40 0.9) in
    let ballGradient := addColorStop ballGradient 1 (rgba 120 60 10 0.05) in
    SetFillStyle ballGradient ;;
    BeginPath ;;
    Arc ballX ballY ballRadius 0 (PI * 2) ;;
    Fill ;;
    (* energy arcs *)
    SetStrokeStyle (rgba 255 255 200 (0.6 + pulse * 0.3)) ;;
    SetLineWidth 2 ;;
    forRange 0 5 (fun i =>
      let angle := (INR i / 5) * PI * 2 + t * 2 in
      BeginPath ;;
      Arc ballX ballY (ballRadius * (1.2 + pulse * 0.1)) angle (angle + PI / 3) ;;
      call Stroke)
  else skip.

Definition drawEnergyFlows (scene : SceneContext) : Draw :=
  let '(mkScene width height t _ _) := scene in
  let baseY := height * 0.72 in
  let waves := 18%nat in
  forRange 0 waves (fun i =>
    let waveT := (t * 0.7 + INR i * 0.1) %% 1 in
    let alpha := 0.15 + (1 - waveT) * 0.3 in
    SetStrokeStyle (rgba (20 + INR i * 5) (160 + INR i * 3) 255 alpha) ;;
    SetLineWidth 1.2 ;;
    BeginPath ;;
    (* [for (let x = 0; x <= width; x += 15)] *)
    forRange 0 (stepsUpTo width 15) (fun n =>
      let x := INR n * 15 in
      let progress := x / width in
      let y :=
        baseY +
        sin (progress * PI * 6 + t * 3 + INR i) * 20 * (1 - waveT) -
        waveT * 180 in
      call (LineTo x y)) ;;
    call Stroke) ;;
  (* Shock sparks near ground *)
  forRange 0 70 (fun i =>
    let seed := INR i * 12.92 in
    let flicker := (sin (t * 10 + seed) + 1) / 2 in
    let x := ((seed * 123.77) %% 1) * width in
    let y := baseY + (sin (seed * 0.2 + t * 3) * 25) in
    SetFillStyle (rgba 255 (120 + flicker * 120) (40 + flicker * 120)
                       (0.2 + flicker * 0.3)) ;;
    BeginPath ;;
    Arc x y (2 + flicker * 4) 0 (PI * 2) ;;
    call Fill).

Definition drawForegroundEffects (scene : SceneContext) : Draw :=
  let '(mkScene width height t _ _) := scene in
  let finaleStart := 38 in
  if Js.ltb t finaleStart then skip else
  let finaleProgress := clamp ((t - finaleStart) / 7) 0 1 in
  let beamAngle := - PI / 6 in
  let heroX := width / 2 in
  let heroY := height * 0.65 in
  Save ;;
  SetGlobalCompositeOperation "screen" ;;
  let beamLength := width * 0.8 in
  let grad :=
    createLinearGradient heroX heroY
      (heroX + cos beamAngle * beamLength) (heroY + sin beamAngle * beamLength) in
  let grad := addColorStop grad 0 (rgba 255 250 210 0.8) in
  let grad := addColorStop grad 0.3 (rgba 255 180 80 0.9) in
  let grad := addColorStop grad 0.7 (rgba 80 140 255 (0.7 + finaleProgress * 0.3)) in
  let grad := addColorStop grad 1 (rgba 0 0 0 0) in
  SetFillStyle grad ;;
  BeginPath ;;
  MoveTo (heroX - 20) (heroY - 10) ;;
  LineTo (heroX + cos beamAngle * beamLength)
         (heroY + sin beamAngle * beamLength - 80) ;;
  LineTo (heroX + cos beamAngle * beamLength)
         (heroY + sin beamAngle * beamLength + 80) ;;
  LineTo (heroX + 20) (heroY + 10) ;;
  ClosePath ;;
  Fill ;;
  (* Impact flash *)
  let flashPhase := sin (t * 6) * 0.5 + 0.5 in
  let impactX := heroX + cos beamAngle * beamLength in
  let impactY := heroY + sin beamAngle * beamLength in
  let impactRadius := 120 + finaleProgress * 180 in
  let impactGradient :=
    createRadialGradient impactX impactY (impactRadius * 0.1)
                         impactX impactY impactRadius in
  let impactGradient :=
    addColorStop impactGradient 0 (rgba 255 255 255 (0.9 - finaleProgress * 0.2)) in
  let impactGradient := addColorStop impactGradient 0.4 (rgba 255 200 120 0.6) in
  let impactGradient := addColorStop impactGradient 1 (rgba 0 0 0 0) in
  SetFillStyle impactGradient ;;
  BeginPath ;;
  Arc impactX impactY impactRadius 0 (PI * 2) ;;
  Fill ;;
  (* Glass shards *)
  SetGlobalAlpha (0.8 - finaleProgress * 0.3) ;;
  forRange 0 30 (fun i =>
    let angle := (INR i / 30) * PI * 2 + t * 2 in
    let dist := 60 + finaleProgress * 220 + sin (t * 4 + INR i) * 30 in
    let shardX := impactX + cos angle * dist in
    let shardY := impactY + sin angle * dist in
    SetFillStyle (rgba (120 + INR i * 4) (160 + INR i * 3) 255 0.6) ;;
    BeginPath ;;
    MoveTo shardX shardY ;;
    LineTo (shardX + cos (angle + 0.3) * 18) (shardY + sin (angle + 0.3) * 18) ;;
    LineTo (shardX + cos (angle - 0.2) * 12) (shardY + sin (angle - 0.2) * 12) ;;
    ClosePath ;;
    call Fill) ;;
  call Restore.

(* ------------------------------------------------------------------ *)
(** ** The frame renderer and its driver *)

Record HTMLCanvasElement := mkCanvas {
  clientWidth : R;
  clientHeight : R
}.

Definition renderFrame (canvas : HTMLCanvasElement) (tSeconds : R)
                       (buildings : list Building) (billboards : list Billboard)
  : Draw :=
  let width := clientWidth canvas in
  let height := clientHeight canvas in
  ClearRect 0 0 width height ;;
  let scene := mkScene width height tSeconds buildings billboards in
  drawSkies scene ;;
  drawCity scene ;;
  drawShockwave scene ;;
  drawArena scene ;;
  drawPortals scene ;;
  drawMonsters scene ;;
  drawHero scene ;;
  drawEnergyFlows scene ;;
  drawForegroundEffects scene.

(** One tick of the redraw loop, [draw(timestamp)], without the rescheduling. *)
Definition draw (canvas : HTMLCanvasElement) (start timestamp : R)
                (buildings : list Building) (billboards : list Billboard)
  : Draw :=
  let elapsed := wrapTime (timestamp - start) TOTAL_DURATION in
  let t := elapsed / 1000 in
  renderFrame canvas t buildings billboards.

(* ------------------------------------------------------------------ *)
(** ** Geometry of a trace

    Two ways of moving a whole drawing: a uniform scaling by [k], which
    multiplies every position and every length (radii, rectangle sizes, line
    widths, font sizes, blur radii) and leaves angles, colours and gradient
    offsets alone; and a rigid translation by [(dx, dy)], which moves
    positions and leaves lengths alone. *)

Definition scaleShape (k : R) (s : GradientShape) : GradientShape :=
  match s with
  | LinearShape x0 y0 x1 y1 => LinearShape (k * x0) (k * y0) (k * x1) (k * y1)
  | RadialShape x0 y0 r0 x1 y1 r1 =>
      RadialShape (k * x0) (k * y0) (k * r0) (k * x1) (k * y1) (k * r1)
  end.

Definition scaleStyle (k : R) (s : Style) : Style :=
  match s with
  | SColor c => SColor c
  | SGradient g => SGradient (mkGradient (scaleShape k (shape g)) (stops g))
  end.

Definition scaleCall (k : R) (c : Call) : Call :=
  match c with
  | Translate x y => Translate (k * x) (k * y)
  | ClearRect x y w h => ClearRect (k * x) (k * y) (k * w) (k * h)
  | FillRect x y w h => FillRect (k * x) (k * y) (k * w) (k * h)
  | StrokeRect x y w h => StrokeRect (k * x) (k * y) (k * w) (k * h)
  | MoveTo x y => MoveTo (k * x) (k * y)
  | LineTo x y => LineTo (k * x) (k * y)
  | QuadraticCurveTo cpx cpy x y =>
      QuadraticCurveTo (k * cpx) (k * cpy) (k * x) (k * y)
  | Arc x y radius a0 a1 => Arc (k * x) (k * y) (k * radius) a0 a1
  | Ellipse x y rx ry rot a0 a1 =>
      Ellipse (k * x) (k * y) (k * rx) (k * ry) rot a0 a1
  | FillText text x y => FillText text (k * x) (k * y)
  | SetFillStyle s => SetFillStyle (scaleStyle k s)
  | SetStrokeStyle s => SetStrokeStyle (scaleStyle k s)
  | SetLineWidth w => SetLineWidth (k * w)
  | SetFont f => SetFont (mkFont (weight f) (k * px f) (families f))
  | SetShadowBlur b => SetShadowBlur (k * b)
  | Save | Restore | Scale _ _ | Rotate _ | BeginPath | ClosePath | Fill
  | Stroke | SetGlobalAlpha _ | SetGlobalCompositeOperation _
  | SetTextAlign _ | SetShadowColor _ => c
  end.

Definition translateShape (dx dy : R) (s : GradientShape) : GradientShape :=
  match s with
  | LinearShape x0 y0 x1 y1 =>
      LinearShape (x0 + dx) (y0 + dy) (x1 + dx) (y1 + dy)
  | RadialShape x0 y0 r0 x1 y1 r1 =>
      RadialShape (x0 + dx) (y0 + dy) r0 (x1 + dx) (y1 + dy) r1
  end.

Definition translateStyle (dx dy : R) (s : Style) : Style :=
  match s with
  | SColor c => SColor c
  | SGradient g => SGradient (mkGradient (translateShape dx dy (shape g)) (stops g))
  end.

Definition translateCall (dx dy : R) (c : Call) : Call :=
  match c with
  | ClearRect x y w h => ClearRect (x + dx) (y + dy) w h
  | FillRect x y w h => FillRect (x + dx) (y + dy) w h
  | StrokeRect x y w h => StrokeRect (x + dx) (y + dy) w h
  | MoveTo x y => MoveTo (x + dx) (y + dy)
  | LineTo x y => LineTo (x + dx) (y + dy)
  | QuadraticCurveTo cpx cpy x y =>
      QuadraticCurveTo (cpx + dx) (cpy + dy) (x + dx) (y + dy)
  | Arc x y radius a0 a1 => Arc (x + dx) (y + dy) radius a0 a1
  | Ellipse x y rx ry rot a0 a1 => Ellipse (x + dx) (y + dy) rx ry rot a0 a1
  | FillText text x y => FillText text (x + dx) (y + dy)
  | SetFillStyle s => SetFillStyle (translateStyle dx dy s)
  | SetStrokeStyle s => SetStrokeStyle (translateStyle dx dy s)
  | Save | Restore | Translate _ _ | Scale _ _ | Rotate _ | BeginPath
  | ClosePath | Fill | Stroke | SetLineWidth _ | SetGlobalAlpha _
  | SetGlobalCompositeOperation _ | SetFont _ | SetTextAlign _
  | SetShadowColor _ | SetShadowBlur _ => c
  end.

(** Centres and radii of the ellipses of a trace, in drawing order. *)
Definition ellipses (d : Draw) : list (R * R * R * R) :=
  flat_map (fun c =>
              match c with
              | Ellipse x y rx ry _ _ _ => [(x, y, rx, ry)]
              | _ => []
              end) d.

(* ------------------------------------------------------------------ *)
(** ** Reference values used in the statements *)

(** The four calls of [drawShockwave] once it is past its gate, for a ring
    of radius [radius] in a frame of size [width] by [height]. *)
Definition shockwaveRing (width height radius : R) : Draw :=
  [ SetFillStyle
      (addColorStop
         (addColorStop
            (addColorStop
               (addColorStop
                  (createRadialGradient (width / 2) (height * 0.65) (radius * 0.1)
                                        (width / 2) (height * 0.65) radius)
                  0 (rgba 255 220 120 0.8))
               0.3 (rgba 255 120 20 0.35))
            0.6 (rgba 50 120 255 0.25))
         1 (rgba 0 0 0 0));
    BeginPath;
    Arc (width / 2) (height * 0.65) radius 0 (PI * 2);
    Fill ].

(** The ellipse of [drawMonsters] for a monster at [(x, y)] of scale [scale]
    whose appearance is delayed by [delay] seconds: centre, horizontal and
    vertical radius. *)
Definition monsterBlob (x y scale delay t : R) : R * R * R * R :=
  let size :=
    120 * scale * (0.5 + clamp ((t - 24 - delay) / (44 - 24)) 0 1 * 0.6) in
  (x, y, size, size * 0.75).

(* ------------------------------------------------------------------ *)
(** ** HudOverlay.tsx *)

Record Marker := mkMarker { time : R; label : string }.

Definition TIMELINE : list Marker :=
  [ mkMarker 0 "Times Square Awakens";
    mkMarker 5 "Shockwave Kick";
    mkMarker 12 "Arena Transformation";
    mkMarker 20 "Superhero Allies";
    mkMarker 28 "Monster Siege";
    mkMarker 38 "Final Mega Kick" ].

Definition TOTAL : R := 45.

(** The scan [for (const m of markers) if (elapsed >= m.time) current = m]
    started from [current]. *)
Definition scanMarkers (elapsed : R) (current : Marker) (markers : list Marker)
  : Marker :=
  fold_left (fun cur m => if Js.geb elapsed (time m) then m else cur)
            markers current.

(** [let current = TIMELINE[0]; for (...) ...; return current]. *)
Definition activeMarker (elapsed : R) : Marker :=
  scanMarkers elapsed (nth 0 TIMELINE (mkMarker 0 "")) TIMELINE.

(** [const t = ((time - start) % (TOTAL * 1000)) / 1000] of [loop]. *)
Definition hudElapsed (now start : R) : R :=
  ((now - start) %% (TOTAL * 1000)) / 1000.

(** *** The rendered timeline

    [HudOverlay] maps every marker of [TIMELINE] to a positioned element,
    flagged active when its label is the label of the active marker, and
    draws a tracker bar. *)

Record MarkerView := mkMarkerView {
  view_label : string;
  view_active : bool;
  view_left : R   (* per cent of the track *)
}.

(** [TIMELINE.map((marker) => { const progress = marker.time / TOTAL;
      const isActive = activeMarker.label === marker.label; ... })] *)
Definition hudTimeline (elapsed : R) : list MarkerView :=
  map (fun marker =>
         let progress := time marker / TOTAL in
         let isActive := String.eqb (label (activeMarker elapsed)) (label marker) in
         mkMarkerView (label marker) isActive (progress * 100))
      TIMELINE.

(** [style={{ width: `${(elapsed / TOTAL) * 100}%` }}] of the tracker *)
Definition hudTracker (elapsed : R) : R := (elapsed / TOTAL) * 100.

(* ------------------------------------------------------------------ *)
(** ** Scoping of context state in a trace

    [save()] pushes the context state and [restore()] pops it.  A call is
    [sticky] when it changes state that [restore()] brings back and that no
    pass sets again before drawing: the transform, the global alpha, the
    compositing mode, the font, the text alignment and the shadow. *)

Definition sticky (c : Call) : bool :=
  match c with
  | Translate _ _ | Scale _ _ | Rotate _ | SetGlobalAlpha _
  | SetGlobalCompositeOperation _ | SetFont _ | SetTextAlign _
  | SetShadowColor _ | SetShadowBlur _ => true
  | _ => false
  end.

(** Runs a trace from save depth [depth]: [None] when it restores more than
    it saved or makes a sticky call outside every save, otherwise the depth
    it ends at. *)
Fixpoint scopeCheck (d : Draw) (depth : nat) : option nat :=
  match d with
  | [] => Some depth
  | Save :: rest => scopeCheck rest (S depth)
  | Restore :: rest =>
      match depth with
      | O => None
      | S below => scopeCheck rest below
      end
  | c :: rest =>
      match depth with
      | O => if sticky c then None else scopeCheck rest depth
      | S _ => scopeCheck rest depth
      end
  end.

(** The values given to [globalAlpha], and the arcs, of a trace. *)
Definition globalAlphas (d : Draw) : list R :=
  flat_map (fun c => match c with SetGlobalAlpha a => [a] | _ => [] end) d.

Definition arcs (d : Draw) : list (R * R * R) :=
  flat_map (fun c => match c with Arc x y r _ _ => [(x, y, r)] | _ => [] end) d.

(** A trace that can be run at any depth and gives the depth back. *)
Definition Balanced (d : Draw) : Prop :=
  forall depth : nat, scopeCheck d depth = Some depth.

(** A trace that can be run inside any save and gives the depth back. *)
Definition Scoped (d : Draw) : Prop :=
  forall depth : nat, scopeCheck d (S depth) = Some (S depth).

(** The property of a call that it does not set the global alpha outside
    [[0.25, 1]]. *)
Definition alphaInRange (c : Call) : Prop :=
  match c with
  | SetGlobalAlpha a => 0.25 <= a <= 1
  | _ => True
  end.

(** The property of a call that, if it is an arc, it is centred in the top
    half of a frame of size [width] by [height] and has a radius between 0.5
    and 2 pixels. *)
Definition starInFrame (width height : R) (c : Call) : Prop :=
  match c with
  | Arc x y radius _ _ =>
      0 <= x < width /\ 0 <= y <= height * 0.5 /\ 0.5 <= radius <= 2
  | _ => True
  end.

(** [const windowCols = Math.max(4, Math.floor(w / 12))] of [drawCity], for a
    building in a frame of width [width]. *)
Definition windowCols (width : R) (building : Building) : Z :=
  Z.max 4 (Js.floor (b_width building * width / 12)).

(* ------------------------------------------------------------------ *)
(** ** The frame renderer as a program on the shared store

    The draw passes above denote the calls that a pass makes.  Here the same
    source is read as a program that changes a store: the store holds the 2D
    context (the calls made on it so far) and the scene object together with
    the two layout arrays it refers to.  A pass is handed the scene object,
    reads [width], [height] and [t] from it on entry, and reaches the arrays
    through the store each time [forEach] visits an element, so that a write
    to an array or to the scene object by one pass would be seen by the
    passes that follow. *)

Record World := mkWorld {
  context : Draw;
  sceneObject : SceneContext
}.

(** A statement or a void function: what it does to the store. *)
Definition Effect := World -> World.

Module Stateful.

Declare Scope effect_scope.
Delimit Scope effect_scope with effect.
Bind Scope effect_scope with Effect.

(** One call on the 2D context. *)
Definition emit (c : Call) : Effect :=
  fun w => mkWorld (context w ++ [c]) (sceneObject w).
Coercion emit : Call >-> Effect.

Definition nop : Effect := fun w => w.

Definition andThen (a b : Effect) : Effect := fun w => b (a w).

Notation "a ;; b" := (andThen a b) (at level 61, right associativity)
  : effect_scope.

Local Open Scope effect_scope.

(** Entry of [function pass({ ctx, width, height, t, ... }: SceneContext)]:
    the fields of the scene object are read once. *)
Definition withScene (body : SceneContext -> Effect) : Effect :=
  fun w => body (sceneObject w) w.

(** The arrays behind [buildings] and [billboards]. *)
Definition sharedBuildings (w : World) : list Building :=
  buildings (sceneObject w).
Definition sharedBillboards (w : World) : list Billboard :=
  billboards (sceneObject w).

(** [for (let i = from; i < to; i += 1) body(i)] *)
Definition forRange (from to : nat) (body : nat -> Effect) : Effect :=
  fun w => fold_left (fun w' i => body i w') (List.seq from (to - from)) w.

(** [array.forEach(body)] on an array of the store: the number of visits is
    the length on entry; each visit reads its element from the store as it
    then is, and skips an index that has no element any more. *)
Fixpoint forEachAt {A : Type} (array : World -> list A) (index visits : nat)
                   (body : A -> nat -> Effect) : Effect :=
  match visits with
  | O => nop
  | S rest =>
      fun w =>
        forEachAt array (S index) rest body
          match nth_error (array w) index with
          | Some item => body item index w
          | None => w
          end
  end.

Definition forEach {A : Type} (array : World -> list A)
                   (body : A -> nat -> Effect) : Effect :=
  fun w => forEachAt array 0 (List.length (array w)) body w.

(** [items.forEach(body)] on an array literal local to the pass. *)
Fixpoint forEachOfFrom {A : Type} (index : nat) (items : list A)
                       (body : A -> nat -> Effect) : Effect :=
  match items with
  | [] => nop
  | item :: rest => body item index ;; forEachOfFrom (S index) rest body
  end.

Definition forEachOf {A : Type} (items : list A) (body : A -> nat -> Effect)
  : Effect :=
  forEachOfFrom 0 items body.

Definition drawSkies : Effect :=
  withScene (fun scene =>
  let '(mkScene width height t _ _) := scene in
  let gradient := createLinearGradient 0 0 0 height in
  let baseShift := sin (t * 0.1) * 0.1 in
  let gradient := addColorStop gradient 0 (rgba (10 + baseShift * 50) 10 60 1) in
  let gradient := addColorStop gradient 0.5 (rgba 5 10 30 0.95) in
  let gradient := addColorStop gradient 1 (rgba 0 0 8 1) in
  SetFillStyle gradient ;;
  FillRect 0 0 width height ;;
  (* Stars / sparks *)
  forRange 0 120 (fun i =>
    let p := (INR i * 97.77) %% 1 in
    let x := p * width in
    let y := ((sin (INR i * 42.12 + t * 0.3) + 1) / 2) * height * 0.5 in
    let size := ((cos (INR i * 12.12 + t) + 1) / 2) * 1.5 + 0.5 in
    SetFillStyle (rgba (150 + INR (i mod 50)) (80 + INR (i mod 40)) 255
                       (0.5 + ((sin (t * 2 + INR i) + 1) / 4))) ;;
    BeginPath ;;
    Arc x y size 0 (PI * 2) ;;
    emit Fill)).

Definition drawCity : Effect :=
  withScene (fun scene =>
  let '(mkScene width height t _ _) := scene in
  let baseline := height * 0.68 in
  Save ;;
  Translate 0 baseline ;;
  Scale 1 1 ;;
  forEach sharedBuildings (fun building index =>
    let x := b_x building * width in
    let w := b_width building * width in
    let h := - b_height building * height in
    let offset := sin (t * 0.5 + b_lightSeed building) * 20 in
    let buildingGrad := createLinearGradient 0 h 0 0 in
    let buildingGrad :=
      addColorStop buildingGrad 0 (rgba (20 + INR index * 3) 10 60 0.9) in
    let buildingGrad :=
      addColorStop buildingGrad 0.5 (rgba (10 + INR index * 2) 10 40 0.9) in
    let buildingGrad := addColorStop buildingGrad 1 (rgba 10 8 30 0.8) in
    SetFillStyle buildingGrad ;;
    FillRect x h w (- h) ;;
    let windowRows := 8%nat in
    let windowCols := Z.max 4 (Js.floor (w / 12)) in
    let flicker := 0.3 + (sin (t * 2 + INR index) + 1) / 2 in
    forRange 1 windowRows (fun r =>
      forRange 0 (Z.to_nat windowCols) (fun c =>
        let wx := x + 6 + INR c * (w / IZR windowCols) in
        let wy := h + INR r * ((- h) / INR windowRows) in
        let windowOn := negb (((r + c + index) mod 3) =? 0)%nat in
        let intensity := if windowOn then flicker else 0.1 in
        SetFillStyle (rgba (120 + intensity * 80) (60 + intensity * 120)
                           (20 + intensity * 160) (0.4 + intensity * 0.3)) ;;
        emit (FillRect wx wy 4 (8 + offset * 0.02))))) ;;
  (* Neon billboards *)
  forEach sharedBillboards (fun board index =>
    let x := bb_x board * width in
    let y := - bb_y board * height * 0.6 in
    let w := bb_width board * width in
    let h := bb_height board * height in
    Save ;;
    Translate (x + w / 2) (y - h / 2) ;;
    Rotate (bb_rotation board + sin (t * 0.5 + INR index) * 0.02) ;;
    let glow := createLinearGradient (- w / 2) (- h / 2) (w / 2) (h / 2) in
    let glow :=
      addColorStop glow 0
        (rgba 0 (140 + INR index * 10) (255 - INR index * 20) 0.3) in
    let glow :=
      addColorStop glow 1
        (rgba 255 (60 + INR index * 20) (180 - INR index * 10) 0.7) in
    SetFillStyle glow ;;
    FillRect (- w / 2) (- h / 2) w h ;;
    SetLineWidth (2 + sin (t * 6 + INR index) * 0.5) ;;
    SetStrokeStyle (rgba 255 255 255 0.8) ;;
    StrokeRect (- w / 2) (- h / 2) w h ;;
    emit Restore) ;;
  emit Restore).

Definition drawShockwave : Effect :=
  withScene (fun scene =>
  let '(mkScene width height t _ _) := scene in
  let shockStart := 5 in
  let shockEnd := 11 in
  if Js.ltb t shockStart then nop else
  let localT := clamp ((t - shockStart) / (shockEnd - shockStart)) 0 1 in
  let eased := easeInOut localT in
  let radius := lerp 0 (Js.max width height * 1.2) eased in
  let centerX := width / 2 in
  let centerY := height * 0.65 in
  let gradient :=
    createRadialGradient centerX centerY (radius * 0.1) centerX centerY radius in
  let gradient := addColorStop gradient 0 (rgba 255 220 120 0.8) in
  let gradient := addColorStop gradient 0.3 (rgba 255 120 20 0.35) in
  let gradient := addColorStop gradient 0.6 (rgba 50 120 255 0.25) in
  let gradient := addColorStop gradient 1 (rgba 0 0 0 0) in
  SetFillStyle gradient ;;
  BeginPath ;;
  Arc centerX centerY radius 0 (PI * 2) ;;
  emit Fill).

Definition drawArena : Effect :=
  withScene (fun scene =>
  let '(mkScene width height t _ _) := scene in
  let arenaStart := 9 in
  let arenaEnd := 20 in
  if Js.ltb t arenaStart then nop else
  let localT := clamp ((t - arenaStart) / (arenaEnd - arenaStart)) 0 1 in
  let pulse := sin (t * 5) * 0.5 + 0.5 in
  (* Neon floor grid *)
  let gridOpacity := 0.25 + localT * 0.6 in
  Save ;;
  SetGlobalAlpha gridOpacity ;;
  SetStrokeStyle (rgba 0 255 240 (0.4 + pulse * 0.2)) ;;
  SetLineWidth 1.5 ;;
  let floorY := height * 0.72 in
  forRange 0 20 (fun i =>
    let x := (INR i / 19) * width in
    BeginPath ;;
    MoveTo x floorY ;;
    LineTo (width / 2 + (x - width / 2) * 1.6) height ;;
    emit Stroke) ;;
  forRange 0 12 (fun j =>
    let y := floorY + (INR j / 12) * (height - floorY) in
    BeginPath ;;
    MoveTo 0 y ;;
    LineTo width (y + (sin (t + INR j) * 20)) ;;
    emit Stroke) ;;
  Restore ;;
  (* Fireworks burst arcs *)
  let bursts := 6%nat in
  forRange 0 bursts (fun i =>
    let phase := (t * 0.8 + INR i) %% 1 in
    let alpha := 1 - phase in
    let cx := (0.1 + 0.8 * ((INR i * 97.31) %% 1)) * width in
    let cy := height * (0.2 + ((INR i * 0.17) %% 0.4)) in
    let radius := 80 + phase * 220 in
    SetStrokeStyle (rgba 255 (60 + INR i * 25) (200 - INR i * 20)
                         (alpha * (0.6 + pulse * 0.2))) ;;
    SetLineWidth 2.5 ;;
    BeginPath ;;
    Arc cx cy radius 0 (PI * 2) ;;
    emit Stroke) ;;
  (* Billboards text highlight *)
  Save ;;
  SetFont (mkFont "bold" (Js.max 28 (width * 0.03))
                  ["Bebas Neue"; "Oswald"; "sans-serif"]) ;;
  SetTextAlign "center" ;;
  SetFillStyle (rgba 255 80 180 (0.6 + localT * 0.4)) ;;
  SetShadowColor (rgba 0 255 220 (0.7 * (0.4 + pulse * 0.6))) ;;
  SetShadowBlur (30 + 40 * pulse) ;;
  FillText "RONALDO VS THE WORLD" (width / 2) (height * 0.12) ;;
  Restore ;;
  (* Animated billboard beams *)
  forEach sharedBillboards (fun board index =>
    let beamProgress := (localT * 1.5 + INR index * 0.1 + t * 0.2) %% 1 in
    let x := bb_x board * width in
    let y := height * (0.4 + bb_y board * 0.4) in
    let w := bb_width board * width * (0.6 + localT * 0.8) in
    let h := bb_height board * height * (0.6 + localT * 0.7) in
    let grad := createLinearGradient x y x (y - h * 1.8) in
    let grad := addColorStop grad 0 (rgba 0 255 220 0) in
    let grad :=
      addColorStop grad (clamp (beamProgress - 0.1) 0 1) (rgba 0 255 220 0) in
    let grad :=
      addColorStop grad (clamp beamProgress 0 1) (rgba 255 80 220 0.55) in
    let grad :=
      addColorStop grad (clamp (beamProgress + 0.05) 0 1) (rgba 255 140 20 0.2) in
    let grad := addColorStop grad 1 (rgba 0 0 0 0) in
    SetFillStyle grad ;;
    emit (FillRect (x - w / 2) (y - h * 1.8) w (h * 1.8)))).

Definition drawPortals : Effect :=
  withScene (fun scene =>
  let '(mkScene width height t _ _) := scene in
  let portalStart := 18 in
  let portalEnd := 31 in
  if Js.ltb t portalStart then nop else
  let portalDuration := portalEnd - portalStart in
  let local := clamp ((t - portalStart) / portalDuration) 0 1 in
  let pulse := sin (t * 4) * 0.5 + 0.5 in
  let positions :=
    [ mkPortal (width * 0.22) (height * 0.45) 210 "MESSI";
      mkPortal (width * 0.78) (height * 0.46) 140 "NEYMAR";
      mkPortal (width * 0.35) (height * 0.25) 280 "MBAPPÃ‰";
      mkPortal (width * 0.65) (height * 0.2) 20 "HAALAND" ] in
  forEachOf positions (fun portal index =>
    let appearDelay := INR index * 0.5 in
    let progress :=
      clamp ((t - portalStart - appearDelay) / (portalDuration - appearDelay))
            0 1 in
    let radius := 90 + progress * 70 in
    Save ;;
    SetGlobalCompositeOperation "lighter" ;;
    SetLineWidth (4 + pulse * 3) ;;
    SetStrokeStyle (hsla (portal_hue portal) 90 (50 + pulse * 20)
                         (0.5 + progress * 0.4)) ;;
    BeginPath ;;
    Arc (portal_x portal) (portal_y portal) radius 0 (PI * 2) ;;
    Stroke ;;
    (* inner vortex *)
    SetLineWidth 2 ;;
    SetStrokeStyle (hsla (portal_hue portal) 100 (70 + pulse * 10) 0.6) ;;
    let swirlCount := 6%nat in
    forRange 0 swirlCount (fun i =>
      let angle := (INR i / INR swirlCount) * PI * 2 + t * 0.8 in
      BeginPath ;;
      Arc (portal_x portal + cos angle * radius * 0.3)
          (portal_y portal + sin angle * radius * 0.3)
          (radius * 0.4)
          angle
          (angle + PI / 1.6) ;;
      emit Stroke) ;;
    (* silhouettes *)
    SetFillStyle (hsla (portal_hue portal) 100 (25 + pulse * 20)
                       (0.6 + progress * 0.3)) ;;
    BeginPath ;;
    Ellipse (portal_x portal) (portal_y portal)
            (30 + progress * 20) (60 + progress * 30) 0 0 (PI * 2) ;;
    Fill ;;
    SetFillStyle (rgba 10 10 12 0.9) ;;
    BeginPath ;;
    Arc (portal_x portal) (portal_y portal - 50 - progress * 10)
        (14 + progress * 4) 0 (PI * 2) ;;
    Fill ;;
    SetFillStyle (rgba 255 255 255 0.8) ;;
    SetFont (mkFont "600" (Js.max 16 (width * 0.012))
                    ["Rajdhani"; "sans-serif"]) ;;
    SetTextAlign "center" ;;
    FillText (portal_label portal) (portal_x portal)
             (portal_y portal + 90 + progress * 40) ;;
    emit Restore)).

Definition drawMonsters : Effect :=
  withScene (fun scene =>
  let '(mkScene width height t _ _) := scene in
  let monsterStart := 24 in
  let monsterEnd := 44 in
  if Js.ltb t monsterStart then nop else
  let monsterPhase :=
    clamp ((t - monsterStart) / (monsterEnd - monsterStart)) 0 1 in
  let monsters :=
    [ mkMonster (width * 0.12) (height * 0.5) 1.2 190;
      mkMonster (width * 0.88) (height * 0.52) 1.1 310;
      mkMonster (width * 0.5) (height * 0.18) 1.5 40 ] in
  forEachOf monsters (fun monster index =>
    let appearDelay := INR index * 0.8 in
    let progress :=
      clamp ((t - monsterStart - appearDelay) / (monsterEnd - monsterStart))
            0 1 in
    let size := 120 * monster_scale monster * (0.5 + progress * 0.6) in
    Save ;;
    SetGlobalAlpha (0.6 + progress * 0.4) ;;
    let grad :=
      createRadialGradient (monster_x monster) (monster_y monster) (size * 0.3)
                           (monster_x monster) (monster_y monster) size in
    let grad := addColorStop grad 0 (hsla (monster_hue monster) 80 70 0.9) in
    let grad := addColorStop grad 0.6 (hsla (monster_hue monster) 90 40 0.7) in
    let grad := addColorStop grad 1 (rgba 0 0 0 0) in
    SetFillStyle grad ;;
    BeginPath ;;
    Ellipse (monster_x monster) (monster_y monster) size (size * 0.75)
            0 0 (PI * 2) ;;
    Fill ;;
    (* Armor plates *)
    SetLineWidth 4 ;;
    SetStrokeStyle (hsla (monster_hue monster) 90 80 0.7) ;;
    BeginPath ;;
    MoveTo (monster_x monster - size * 0.7) (monster_y monster) ;;
    QuadraticCurveTo (monster_x monster) (monster_y monster - size * 0.8)
                     (monster_x monster + size * 0.7) (monster_y monster) ;;
    QuadraticCurveTo (monster_x monster) (monster_y monster + size * 0.8)
                     (monster_x monster - size * 0.7) (monster_y monster) ;;
    Stroke ;;
    (* Eye core *)
    SetFillStyle (rgba 255 80 60 (0.8 + sin (t * 6 + INR index) * 0.2)) ;;
    BeginPath ;;
    Arc (monster_x monster) (monster_y monster - size * 0.1) (size * 0.18)
        0 (PI * 2) ;;
    Fill ;;
    (* Laser beams *)
    let beamCount := 3%nat in
    forRange 0 beamCount (fun i =>
      let offsetAngle := ((INR i / INR beamCount) * PI / 4) - PI / 8 in
      let beamProgress := (t * 1.4 + INR i + INR index) %% 1 in
      let beamIntensity := 0.4 + monsterPhase * 0.6 in
      SetStrokeStyle (rgba 255 (120 + INR index * 40) 50 beamIntensity) ;;
      SetLineWidth (3 + sin (t * 8 + INR i) * 1.2) ;;
      BeginPath ;;
      MoveTo (monster_x monster) (monster_y monster - size * 0.1) ;;
      let beamLength := height * (0.4 + beamProgress * 0.6) in
      LineTo
        (monster_x monster + cos (offsetAngle + beamProgress * PI) * beamLength)
        (monster_y monster + sin (offsetAngle + beamProgress * PI) * beamLength) ;;
      emit Stroke) ;;
    emit Restore)).

Definition drawHero : Effect :=
  withScene (fun scene =>
  let '(mkScene width height t _ _) := scene in
  let heroX := width / 2 in
  let heroY := height * 0.65 in
  let pulse := heroPulse t in
  (* Lightning arcs *)
  (if Js.gtb t 28 then
     let sparks := 12%nat in
     Save ;;
     SetGlobalAlpha (0.4 + pulse * 0.3) ;;
     forRange 0 sparks (fun i =>
       let angle := (INR i / INR sparks) * PI * 2 + t * 2 in
       let length := baseSize * (0.6 + sin (t * 4 + INR i) * 0.4) in
       SetStrokeStyle (rgba 120 220 255 (0.6 + pulse * 0.3)) ;;
       SetLineWidth 1.6 ;;
       BeginPath ;;
       MoveTo heroX (heroY - baseSize * 0.7) ;;
       LineTo (heroX + cos angle * length)
              (heroY - baseSize * 0.7 + sin angle * length) ;;
       emit Stroke) ;;
     emit Restore
   else nop) ;;
  (* Body glow *)
  let glowRadius := baseSize * (0.45 + pulse * 0.1) in
  let glow :=
    createRadialGradient heroX heroY (glowRadius * 0.2) heroX heroY glowRadius in
  let glow := addColorStop glow 0 (rgba 255 210 120 0.9) in
  let glow := addColorStop glow 0.4 (rgba 255 120 40 0.7) in
  let glow := addColorStop glow 1 (rgba 0 0 0 0) in
  SetFillStyle glow ;;
  BeginPath ;;
  Arc heroX heroY glowRadius 0 (PI * 2) ;;
  Fill ;;
  (* Hero silhouette *)
  SetFillStyle (rgba 15 20 30 0.95) ;;
  BeginPath ;;
  Ellipse heroX (heroY - baseSize * 0.2) (baseSize * 0.22) (baseSize * 0.55)
          0 0 (PI * 2) ;;
  Fill ;;
  (* Torso armor highlight *)
  SetFillStyle (rgba 255 215 120 (0.6 + pulse * 0.4)) ;;
  BeginPath ;;
  MoveTo (heroX - baseSize * 0.2) (heroY - baseSize * 0.05) ;;
  QuadraticCurveTo heroX (heroY - baseSize * 0.45)
                   (heroX + baseSize * 0.2) (heroY - baseSize * 0.05) ;;
  QuadraticCurveTo heroX (heroY + baseSize * 0.1)
                   (heroX - baseSize * 0.2) (heroY - baseSize * 0.05) ;;
  Fill ;;
  (* Head *)
  SetFillStyle (rgba 230 230 240 0.95) ;;
  BeginPath ;;
  Arc heroX (heroY - baseSize * 0.6) (baseSize * 0.12) 0 (PI * 2) ;;
  Fill ;;
  (* Golden ball *)
  let ballX := ballX heroX t in
  let ballY := heroY - baseSize * 0.35 in
  let ballRadius := ballRadius t in
  if Js.gtb ballRadius 0 then
    let ballGradient :=
      createRadialGradient ballX ballY (ballRadius * 0.3) ballX ballY ballRadius in
    let ballGradient := addColorStop ballGradient 0 (rgba 255 220 140 1) in
    let ballGradient := addColorStop ballGradient 0.4 (rgba 255 180 40 0.9) in
    let ballGradient := addColorStop ballGradient 1 (rgba 120 60 10 0.05) in
    SetFillStyle ballGradient ;;
    BeginPath ;;
    Arc ballX ballY ballRadius 0 (PI * 2) ;;
    Fill ;;
    (* energy arcs *)
    SetStrokeStyle (rgba 255 255 200 (0.6 + pulse * 0.3)) ;;
    SetLineWidth 2 ;;
    forRange 0 5 (fun i =>
      let angle := (INR i / 5) * PI * 2 + t * 2 in
      BeginPath ;;
      Arc ballX ballY (ballRadius * (1.2 + pulse * 0.1)) angle (angle + PI / 3) ;;
      emit Stroke)
  else nop).

Definition drawEnergyFlows : Effect :=
  withScene (fun scene =>
  let '(mkScene width height t _ _) := scene in
  let baseY := height * 0.72 in
  let waves := 18%nat in
  forRange 0 waves (fun i =>
    let waveT := (t * 0.7 + INR i * 0.1) %% 1 in
    let alpha := 0.15 + (1 - waveT) * 0.3 in
    SetStrokeStyle (rgba (20 + INR i * 5) (160 + INR i * 3) 255 alpha) ;;
    SetLineWidth 1.2 ;;
    BeginPath ;;
    (* [for (let x = 0; x <= width; x += 15)] *)
    forRange 0 (stepsUpTo width 15) (fun n =>
      let x := INR n * 15 in
      let progress := x / width in
      let y :=
        baseY +
        sin (progress * PI * 6 + t * 3 + INR i) * 20 * (1 - waveT) -
        waveT * 180 in
      emit (LineTo x y)) ;;
    emit Stroke) ;;
  (* Shock sparks near ground *)
  forRange 0 70 (fun i =>
    let seed := INR i * 12.92 in
    let flicker := (sin (t * 10 + seed) + 1) / 2 in
    let x := ((seed * 123.77) %% 1) * width in
    let y := baseY + (sin (seed * 0.2 + t * 3) * 25) in
    SetFillStyle (rgba 255 (120 + flicker * 120) (40 + flicker * 120)
                       (0.2 + flicker * 0.3)) ;;
    BeginPath ;;
    Arc x y (2 + flicker * 4) 0 (PI * 2) ;;
    emit Fill)).

Definition drawForegroundEffects : Effect :=
  withScene (fun scene =>
  let '(mkScene width height t _ _) := scene in
  let finaleStart := 38 in
  if Js.ltb t finaleStart then nop else
  let finaleProgress := clamp ((t - finaleStart) / 7) 0 1 in
  let beamAngle := - PI / 6 in
  let heroX := width / 2 in
  let heroY := height * 0.65 in
  Save ;;
  SetGlobalCompositeOperation "screen" ;;
  let beamLength := width * 0.8 in
  let grad :=
    createLinearGradient heroX heroY
      (heroX + cos beamAngle * beamLength) (heroY + sin beamAngle * beamLength) in
  let grad := addColorStop grad 0 (rgba 255 250 210 0.8) in
  let grad := addColorStop grad 0.3 (rgba 255 180 80 0.9) in
  let grad := addColorStop grad 0.7 (rgba 80 140 255 (0.7 + finaleProgress * 0.3)) in
  let grad := addColorStop grad 1 (rgba 0 0 0 0) in
  SetFillStyle grad ;;
  BeginPath ;;
  MoveTo (heroX - 20) (heroY - 10) ;;
  LineTo (heroX + cos beamAngle * beamLength)
         (heroY + sin beamAngle * beamLength - 80) ;;
  LineTo (heroX + cos beamAngle * beamLength)
         (heroY + sin beamAngle * beamLength + 80) ;;
  LineTo (heroX + 20) (heroY + 10) ;;
  ClosePath ;;
  Fill ;;
  (* Impact flash *)
  let flashPhase := sin (t * 6) * 0.5 + 0.5 in
  let impactX := heroX + cos beamAngle * beamLength in
  let impactY := heroY + sin beamAngle * beamLength in
  let impactRadius := 120 + finaleProgress * 180 in
  let impactGradient :=
    createRadialGradient impactX impactY (impactRadius * 0.1)
                         impactX impactY impactRadius in
  let impactGradient :=
    addColorStop impactGradient 0 (rgba 255 255 255 (0.9 - finaleProgress * 0.2)) in
  let impactGradient := addColorStop impactGradient 0.4 (rgba 255 200 120 0.6) in
  let impactGradient := addColorStop impactGradient 1 (rgba 0 0 0 0) in
  SetFillStyle impactGradient ;;
  BeginPath ;;
  Arc impactX impactY impactRadius 0 (PI * 2) ;;
  Fill ;;
  (* Glass shards *)
  SetGlobalAlpha (0.8 - finaleProgress * 0.3) ;;
  forRange 0 30 (fun i =>
    let angle := (INR i / 30) * PI * 2 + t * 2 in
    let dist := 60 + finaleProgress * 220 + sin (t * 4 + INR i) * 30 in
    let shardX := impactX + cos angle * dist in
    let shardY := impactY + sin angle * dist in
    SetFillStyle (rgba (120 + INR i * 4) (160 + INR i * 3) 255 0.6) ;;
    BeginPath ;;
    MoveTo shardX shardY ;;
    LineTo (shardX + cos (angle + 0.3) * 18) (shardY + sin (angle + 0.3) * 18) ;;
    LineTo (shardX + cos (angle - 0.2) * 12) (shardY + sin (angle - 0.2) * 12) ;;
    ClosePath ;;
    emit Fill) ;;
  emit Restore).

(** [const scene: SceneContext = { ctx, width, height, t: tSeconds,
      buildings, billboards }]: a new scene object that refers to the same
    two arrays. *)
Definition newScene (width height tSeconds : R) : Effect :=
  fun w =>
    mkWorld (context w)
            (mkScene width height tSeconds (sharedBuildings w) (sharedBillboards w)).

Definition renderFrame (canvas : HTMLCanvasElement) (tSeconds : R) : Effect :=
  let width := clientWidth canvas in
  let height := clientHeight canvas in
  ClearRect 0 0 width height ;;
  newScene width height tSeconds ;;
  drawSkies ;;
  drawCity ;;
  drawShockwave ;;
  drawArena ;;
  drawPortals ;;
  drawMonsters ;;
  drawHero ;;
  drawEnergyFlows ;;
  drawForegroundEffects.

End Stateful.

(** [Appends e scene d]: run in a store whose scene object is [scene], the
    program [e] makes exactly the calls [d], after those already made, and
    leaves the scene object and the arrays as they were. *)
Definition Appends (e : Effect) (scene : SceneContext) (d : Draw) : Prop :=
  forall made : Draw,
    e (mkWorld made scene) = mkWorld (made ++ d) scene.

(* ------------------------------------------------------------------ *)
(** * Properties *)

Section JsArithmetic.

Lemma Int_part_bounds (x : R) : IZR (Int_part x) <= x < IZR (Int_part x) + 1.
Proof. destruct (base_Int_part x); lra. Qed.

Lemma Int_part_unique (x : R) (z : Z) : IZR z <= x < IZR z + 1 -> Int_part x = z.
Proof. intros H; symmetry; apply Int_part_spec; lra. Qed.

Lemma Int_part_IZR (z : Z) : Int_part (IZR z) = z.
Proof. apply Int_part_unique; lra. Qed.

Lemma div_nonneg (x y : R) : 0 <= x -> 0 < y -> 0 <= x / y.
Proof.
  intros Hx Hy. unfold Rdiv.
  apply Rmult_le_pos; [exact Hx | left; apply Rinv_0_lt_compat; exact Hy].
Qed.

Lemma trunc_nonneg (x : R) : 0 <= x -> Js.trunc x = Int_part x.
Proof. intros H; unfold Js.trunc; destruct (Rle_dec 0 x); [reflexivity | lra]. Qed.

Lemma trunc_neg (x : R) : x < 0 -> Js.trunc x = (- Int_part (- x))%Z.
Proof. intros H; unfold Js.trunc; destruct (Rle_dec 0 x); [lra | reflexivity]. Qed.

(** The remainder of a non-negative dividend by a positive divisor. *)
Lemma rem_nonneg_bounds (x y : R) : 0 <= x -> 0 < y -> 0 <= x %% y < y.
Proof.
  intros Hx Hy. unfold Js.rem.
  assert (Hq : 0 <= x / y) by (apply div_nonneg; lra).
  rewrite (trunc_nonneg _ Hq).
  destruct (Int_part_bounds (x / y)) as [Hlo Hhi].
  assert (Hxy : x = y * (x / y)) by (field; lra).
  split.
  - apply Rmult_le_compat_l with (r := y) in Hlo; lra.
  - apply Rmult_lt_compat_l with (r := y) in Hhi; lra.
Qed.

(** The remainder of a negative dividend is never positive. *)
Lemma rem_neg_bounds (x y : R) : x < 0 -> 0 < y -> - y < x %% y <= 0.
Proof.
  intros Hx Hy. unfold Js.rem.
  assert (Hq : x / y < 0).
  { unfold Rdiv. assert (0 < / y) by (apply Rinv_0_lt_compat; lra). nra. }
  rewrite (trunc_neg _ Hq), opp_IZR.
  destruct (Int_part_bounds (- (x / y))) as [Hlo Hhi].
  assert (Hxy : x = y * (x / y)) by (field; lra).
  split.
  - apply Rmult_lt_compat_l with (r := y) in Hhi; lra.
  - apply Rmult_le_compat_l with (r := y) in Hlo; lra.
Qed.

Lemma rem_small (x y : R) : 0 <= x < y -> x %% y = x.
Proof.
  intros [Hx Hy]. unfold Js.rem.
  assert (Hq : 0 <= x / y) by (apply div_nonneg; lra).
  rewrite (trunc_nonneg _ Hq).
  rewrite (Int_part_unique (x / y) 0).
  - lra.
  - split; [exact Hq |].
    apply Rmult_lt_reg_r with (r := y); [lra |].
    replace (x / y * y) with x by (field; lra). lra.
Qed.

End JsArithmetic.

Section Scalars.

Lemma ltb_true (a b : R) : a < b -> Js.ltb a b = true.
Proof. intros H; unfold Js.ltb; destruct (Rlt_dec a b); [reflexivity | lra]. Qed.

Lemma ltb_false (a b : R) : b <= a -> Js.ltb a b = false.
Proof. intros H; unfold Js.ltb; destruct (Rlt_dec a b); [lra | reflexivity]. Qed.

Lemma geb_true (a b : R) : b <= a -> Js.geb a b = true.
Proof. intros H; unfold Js.geb; destruct (Rle_dec b a); [reflexivity | lra]. Qed.

Lemma geb_false (a b : R) : a < b -> Js.geb a b = false.
Proof. intros H; unfold Js.geb; destruct (Rle_dec b a); [lra | reflexivity]. Qed.

Lemma clamp_inside (v lo hi : R) : lo <= v <= hi -> clamp v lo hi = v.
Proof.
  intros [H1 H2]. unfold clamp, Js.min, Js.max.
  rewrite (Rmax_right lo v H1). apply Rmin_right; exact H2.
Qed.

Lemma clamp_below (v lo hi : R) : v <= lo -> lo <= hi -> clamp v lo hi = lo.
Proof.
  intros H1 H2. unfold clamp, Js.min, Js.max.
  rewrite (Rmax_left lo v H1). apply Rmin_right; exact H2.
Qed.

Lemma clamp_above (v lo hi : R) : hi <= v -> lo <= hi -> clamp v lo hi = hi.
Proof.
  intros H1 H2. unfold clamp, Js.min, Js.max.
  rewrite (Rmax_right lo v) by lra. apply Rmin_left; exact H1.
Qed.

Lemma clamp_range (v lo hi : R) : lo <= hi -> lo <= clamp v lo hi <= hi.
Proof.
  intros H.
  destruct (Rle_dec v lo) as [Hl | Hl].
  - rewrite clamp_below by lra. lra.
  - destruct (Rle_dec hi v) as [Hh | Hh].
    + rewrite clamp_above by lra. lra.
    + rewrite clamp_inside by lra. lra.
Qed.

End Scalars.

Section LoopClock.

(** The double remainder of [wrapTime] is the floor-based modulus. *)
Lemma wrapTime_floor (x L : R) :
  0 < L -> wrapTime x L = x - L * IZR (Int_part (x / L)).
Proof.
  intros HL. unfold wrapTime.
  destruct (Rle_dec 0 x) as [Hx | Hx].
  - destruct (rem_nonneg_bounds x L Hx HL) as [Hlo Hhi].
    assert (Hq : 0 <= x / L) by (apply div_nonneg; lra).
    assert (Hm : x %% L = x - L * IZR (Int_part (x / L))).
    { unfold Js.rem. rewrite (trunc_nonneg _ Hq). reflexivity. }
    rewrite <- Hm.
    set (m := x %% L) in *.
    unfold Js.rem.
    assert (Hq1 : 0 <= (m + L) / L) by (apply div_nonneg; lra).
    rewrite (trunc_nonneg _ Hq1).
    rewrite (Int_part_unique ((m + L) / L) 1).
    + lra.
    + replace ((m + L) / L) with (m / L + 1) by (field; lra).
      assert (0 <= m / L) by (apply div_nonneg; lra).
      assert (m / L < 1).
      { apply Rmult_lt_reg_r with (r := L); [lra |].
        replace (m / L * L) with m by (field; lra). lra. }
      lra.
  - assert (Hx' : x < 0) by lra.
    destruct (rem_neg_bounds x L Hx' HL) as [Hlo Hhi].
    assert (Hq : x / L < 0).
    { unfold Rdiv. assert (0 < / L) by (apply Rinv_0_lt_compat; lra). nra. }
    assert (Hm : x %% L = x + L * IZR (Int_part (- (x / L)))).
    { unfold Js.rem. rewrite (trunc_neg _ Hq), opp_IZR. lra. }
    destruct (Int_part_bounds (- (x / L))) as [Hf1 Hf2].
    set (k := Int_part (- (x / L))) in *.
    assert (HxL : x = L * (x / L)) by (field; lra).
    destruct (Req_dec (x %% L) 0) as [Hz | Hnz].
    + (* [x] is a multiple of [L] *)
      rewrite Hz, Rplus_0_l.
      assert (HkL : x / L = IZR (- k)).
      { rewrite opp_IZR. apply Rmult_eq_reg_l with (r := L); lra. }
      rewrite HkL, Int_part_IZR, opp_IZR.
      unfold Js.rem.
      replace (L / L) with 1 by (field; lra).
      rewrite trunc_nonneg by lra.
      rewrite (Int_part_unique 1 1) by lra.
      lra.
    + rewrite rem_small by lra.
      rewrite Hm.
      rewrite (Int_part_unique (x / L) (- k - 1)).
      * rewrite minus_IZR, opp_IZR. lra.
      * rewrite minus_IZR, opp_IZR.
        assert (IZR k <> - (x / L)).
        { intros E. apply Hnz. rewrite Hm, E. lra. }
        lra.
Qed.

Lemma wrapTime_range (x L : R) : 0 < L -> 0 <= wrapTime x L < L.
Proof.
  intros HL. rewrite wrapTime_floor by exact HL.
  destruct (Int_part_bounds (x / L)) as [Hlo Hhi].
  assert (HxL : x = L * (x / L)) by (field; lra).
  split.
  - apply Rmult_le_compat_l with (r := L) in Hlo; lra.
  - apply Rmult_lt_compat_l with (r := L) in Hhi; lra.
Qed.

Lemma wrapTime_period (x L : R) : 0 < L -> wrapTime (x + L) L = wrapTime x L.
Proof.
  intros HL. rewrite !wrapTime_floor by exact HL.
  replace ((x + L) / L) with (x / L + 1) by (field; lra).
  destruct (Int_part_bounds (x / L)) as [Hlo Hhi].
  rewrite (Int_part_unique (x / L + 1) (Int_part (x / L) + 1)).
  - rewrite plus_IZR. lra.
  - rewrite plus_IZR. lra.
Qed.

Lemma wrapTime_inside (x L : R) : 0 <= x < L -> wrapTime x L = x.
Proof.
  intros Hx. rewrite wrapTime_floor by lra.
  rewrite (Int_part_unique (x / L) 0); [lra |].
  split.
  - apply div_nonneg; lra.
  - apply Rmult_lt_reg_r with (r := L); [lra |].
    replace (x / L * L) with x by (field; lra). lra.
Qed.

(** X21. Every tick renders a frame for a time inside the 45-second loop,
    also when the timestamp is earlier than [start]. *)
Lemma draw_time_in_loop (canvas : HTMLCanvasElement) (start timestamp : R)
      (buildings : list Building) (billboards : list Billboard) :
  exists t : R,
    0 <= t < 45 /\
    draw canvas start timestamp buildings billboards =
    renderFrame canvas t buildings billboards.
Proof.
  exists (wrapTime (timestamp - start) TOTAL_DURATION / 1000).
  split; [| reflexivity].
  destruct (wrapTime_range (timestamp - start) TOTAL_DURATION) as [Hlo Hhi].
  - unfold TOTAL_DURATION. lra.
  - unfold TOTAL_DURATION in *. lra.
Qed.

(** C7. For every real [x] and loop length [L > 0], [wrapTime x L] lies in
    [[0, L)] and [wrapTime] has period [L]; on [[0, 45000)] with the
    renderer's loop length it is the identity. *)
Theorem wrapTime_range_periodic :
  (forall x L : R, 0 < L ->
     0 <= wrapTime x L < L /\ wrapTime (x + L) L = wrapTime x L) /\
  (forall t : R, 0 <= t < 45000 -> wrapTime t TOTAL_DURATION = t).
Proof.
  split.
  - intros x L HL. split.
    + apply wrapTime_range; exact HL.
    + apply wrapTime_period; exact HL.
  - intros t Ht. apply wrapTime_inside. unfold TOTAL_DURATION. exact Ht.
Qed.

Lemma wrapTime_range_periodic_witness :
  (0 <= wrapTime (-1) 45000 < 45000 /\
   wrapTime (-1 + 45000) 45000 = wrapTime (-1) 45000) /\
  wrapTime 1234 TOTAL_DURATION = 1234.
Proof.
  split.
  - apply (proj1 wrapTime_range_periodic (-1) 45000). lra.
  - apply (proj2 wrapTime_range_periodic 1234). lra.
Defined.

(** C9. The renderer's loop length in milliseconds and the overlay's total
    in seconds are the same 45-second duration. *)
Theorem total_duration_agrees :
  TOTAL_DURATION = TOTAL * 1000 /\ TOTAL_DURATION = 45000 /\ TOTAL = 45.
Proof. unfold TOTAL_DURATION, TOTAL. repeat split; lra. Qed.

End LoopClock.

Section HeroBall.

(** C4. The ball radius factor is 0 at [t = 0], rises linearly to exactly 1
    at [t = 5], is exactly 1 on [[5, 40]], decreases linearly on (40, 45)
    and tends to 0 as [t] approaches 45. *)
Theorem holdingPhase_envelope :
  holdingPhase 0 = 0 /\
  (forall t : R, 0 <= t < 5 -> holdingPhase t = t / 5) /\
  holdingPhase 5 = 1 /\
  (forall t : R, 5 <= t <= 40 -> holdingPhase t = 1) /\
  (forall t : R, 40 < t < 45 -> holdingPhase t = 1 - (t - 40) / 5) /\
  (forall eps : R, 0 < eps ->
     exists delta : R, 0 < delta /\
       forall t : R, 45 - delta < t < 45 -> Rabs (holdingPhase t) < eps).
Proof.
  assert (Hrise : forall t : R, 0 <= t < 5 -> holdingPhase t = t / 5).
  { intros t Ht. unfold holdingPhase. rewrite ltb_true by lra.
    apply clamp_inside. lra. }
  assert (Hhold : forall t : R, 5 <= t <= 40 -> holdingPhase t = 1).
  { intros t Ht. unfold holdingPhase. rewrite ltb_false by lra.
    destruct (Rlt_dec t 40) as [H40 | H40].
    - rewrite ltb_true by lra. reflexivity.
    - rewrite ltb_false by lra. apply clamp_above; lra. }
  assert (Hfall : forall t : R, 40 < t < 45 -> holdingPhase t = 1 - (t - 40) / 5).
  { intros t Ht. unfold holdingPhase. rewrite !ltb_false by lra.
    apply clamp_inside. lra. }
  repeat split.
  - rewrite Hrise by lra. lra.
  - exact Hrise.
  - apply Hhold. lra.
  - exact Hhold.
  - exact Hfall.
  - intros eps Heps.
    exists (Rmin 5 (5 * eps)). split.
    + apply Rmin_glb_lt; lra.
    + intros t [Ht1 Ht2].
      assert (Hd1 : Rmin 5 (5 * eps) <= 5) by apply Rmin_l.
      assert (Hd2 : Rmin 5 (5 * eps) <= 5 * eps) by apply Rmin_r.
      rewrite Hfall by lra.
      apply Rabs_def1; lra.
Qed.

Lemma holdingPhase_envelope_witness :
  holdingPhase 2 = 2 / 5 /\ holdingPhase 20 = 1 /\
  holdingPhase 42 = 1 - (42 - 40) / 5 /\
  exists delta : R, 0 < delta /\
    forall t : R, 45 - delta < t < 45 -> Rabs (holdingPhase t) < 1.
Proof.
  destruct holdingPhase_envelope as (_ & Hrise & _ & Hhold & Hfall & Hlim).
  split; [apply Hrise; lra |].
  split; [apply Hhold; lra |].
  split; [apply Hfall; lra |].
  apply Hlim; lra.
Defined.

(** C10. The ball's horizontal offset from the hero is [0.4 * baseSize] on
    [[0, 5]], is arbitrarily close to 0 just above [t = 5], peaks at
    [0.9 * baseSize] at [t = 5.25] and is exactly 0 on [[5.5, 45)]: it
    never returns to the held offset. *)
Theorem ball_offset_throw (heroX : R) :
  (forall t : R, 0 <= t <= 5 -> ballX heroX t - heroX = 0.4 * baseSize) /\
  (forall eps : R, 0 < eps ->
     exists delta : R, 0 < delta /\
       forall t : R, 5 < t < 5 + delta -> Rabs (ballX heroX t - heroX) < eps) /\
  ~ continuity_pt (fun t : R => ballX heroX t - heroX) 5 /\
  ballX heroX 5.25 - heroX = 0.9 * baseSize /\
  (forall t : R, 5 < t -> ballX heroX t - heroX <= 0.9 * baseSize) /\
  (forall t : R, 5.5 <= t < 45 -> ballX heroX t - heroX = 0).
Proof.
  assert (Hjump : forall eps : R, 0 < eps ->
            exists delta : R, 0 < delta /\
              forall t : R, 5 < t < 5 + delta ->
                Rabs (ballX heroX t - heroX) < eps).
  { intros eps Heps. unfold ballX, Js.gtb, baseSize.
    exists (Rmin (1 / 2) (eps / 1152)). split.
    - apply Rmin_glb_lt; lra.
    - intros t [Ht1 Ht2].
      assert (Hd1 : Rmin (1 / 2) (eps / 1152) <= 1 / 2) by apply Rmin_l.
      assert (Hd2 : Rmin (1 / 2) (eps / 1152) <= eps / 1152) by apply Rmin_r.
      rewrite ltb_true by lra.
      rewrite clamp_inside by lra.
      set (u := (t - 5) / 0.5 * PI).
      assert (Hpi0 : 0 < PI) by apply PI_RGT_0.
      assert (Hpi4 : PI <= 4) by apply PI_4.
      assert (Hu0 : 0 < u) by (unfold u; nra).
      assert (Hu1 : u <= PI) by (unfold u; nra).
      assert (Hu2 : u <= 8 * (t - 5)) by (unfold u; nra).
      assert (Hs0 : 0 <= sin u) by (apply sin_ge_0; lra).
      assert (Hs1 : sin u < u) by (apply sin_lt_x; exact Hu0).
      apply Rabs_def1; lra. }
  assert (Hheld : forall t : R, t <= 5 -> ballX heroX t - heroX = 0.4 * baseSize).
  { intros t Ht. unfold ballX, Js.gtb. rewrite ltb_false by lra. lra. }
  split; [intros t Ht; apply Hheld; lra |].
  split; [exact Hjump |].
  split.
  { intros Hcont.
    destruct (Hcont 32 ltac:(lra)) as (alp & Halp & Hnear).
    destruct (Hjump 32 ltac:(lra)) as (delta & Hdelta & Hsmall).
    set (d := Rmin alp delta / 2).
    assert (Hd0 : 0 < d).
    { unfold d. assert (0 < Rmin alp delta) by (apply Rmin_glb_lt; lra). lra. }
    assert (Hd1 : d < alp).
    { unfold d. pose proof (Rmin_l alp delta).
      assert (0 < Rmin alp delta) by (apply Rmin_glb_lt; lra). lra. }
    assert (Hd2 : d < delta).
    { unfold d. pose proof (Rmin_r alp delta).
      assert (0 < Rmin alp delta) by (apply Rmin_glb_lt; lra). lra. }
    specialize (Hnear (5 + d)).
    assert (Hdist : Rdist (ballX heroX (5 + d) - heroX) (ballX heroX 5 - heroX) < 32).
    { apply Hnear. split.
      - split; [exact I | lra].
      - simpl. unfold Rdist. rewrite Rabs_right; lra. }
    specialize (Hsmall (5 + d) ltac:(lra)).
    rewrite (Hheld 5) in Hdist by lra.
    unfold Rdist, baseSize in Hdist.
    apply Rabs_def2 in Hdist. apply Rabs_def2 in Hsmall. lra. }
  unfold ballX, Js.gtb, baseSize.
  repeat split.
  - rewrite ltb_true by lra.
    rewrite clamp_inside by lra.
    replace ((5.25 - 5) / 0.5 * PI) with (PI / 2) by lra.
    rewrite sin_PI2. lra.
  - intros t Ht. rewrite ltb_true by lra.
    pose proof (SIN_bound (clamp ((t - 5) / 0.5) 0 1 * PI)) as [_ Hs].
    lra.
  - intros t Ht. rewrite ltb_true by lra.
    rewrite clamp_above by lra.
    rewrite Rmult_1_l, sin_PI. lra.
Qed.

Lemma ball_offset_throw_witness :
  ballX 400 3 - 400 = 0.4 * baseSize /\
  (exists delta : R, 0 < delta /\
     forall t : R, 5 < t < 5 + delta -> Rabs (ballX 400 t - 400) < 1) /\
  ballX 400 6 - 400 <= 0.9 * baseSize /\
  ballX 400 30 - 400 = 0.
Proof.
  destruct (ball_offset_throw 400) as (Hheld & Hjump & _ & _ & Hmax & Hzero).
  split; [apply Hheld; lra |].
  split; [apply Hjump; lra |].
  split; [apply Hmax; lra |].
  apply Hzero; lra.
Defined.

End HeroBall.

Section TimelineOverlay.

Lemma find_snoc {A : Type} (f : A -> bool) (l : list A) (x : A) :
  find f (l ++ [x]) =
  match find f l with
  | Some y => Some y
  | None => if f x then Some x else None
  end.
Proof.
  induction l as [| a l IH]; simpl.
  - reflexivity.
  - destruct (f a); [reflexivity | exact IH].
Qed.

(** The scan keeps the last marker, in list order, whose time is at most
    [elapsed]; when there is none it keeps the marker it started from. *)
Lemma scanMarkers_last (elapsed : R) (markers : list Marker) (current : Marker) :
  scanMarkers elapsed current markers =
  match find (fun m => Js.geb elapsed (time m)) (rev markers) with
  | Some m => m
  | None => current
  end.
Proof.
  unfold scanMarkers. revert current.
  induction markers as [| m ms IH]; intros current; simpl.
  - reflexivity.
  - rewrite IH, find_snoc.
    destruct (find (fun m0 => Js.geb elapsed (time m0)) (rev ms)) as [m' |].
    + reflexivity.
    + destruct (Js.geb elapsed (time m)); reflexivity.
Qed.

(** C6. Over the fixed list with times 0, 5, 12, 20, 28, 38 the active
    marker is the last one whose time is at most [elapsed]; the listed
    sample instants select the first, first, second and last marker, and an
    elapsed time wrapped past 45 s back to 0 selects the first again. *)
Theorem activeMarker_selection :
  map time TIMELINE = [0; 5; 12; 20; 28; 38] /\
  (forall elapsed : R,
     activeMarker elapsed =
     match find (fun m => Js.geb elapsed (time m)) (rev TIMELINE) with
     | Some m => m
     | None => mkMarker 0 "Times Square Awakens"
     end) /\
  activeMarker 0 = mkMarker 0 "Times Square Awakens" /\
  activeMarker 4.999 = mkMarker 0 "Times Square Awakens" /\
  activeMarker 5 = mkMarker 5 "Shockwave Kick" /\
  activeMarker 44.999 = mkMarker 38 "Final Mega Kick" /\
  (forall start : R,
     activeMarker (hudElapsed (start + 45000) start) =
     mkMarker 0 "Times Square Awakens").
Proof.
  assert (Hgen : forall elapsed : R,
     activeMarker elapsed =
     match find (fun m => Js.geb elapsed (time m)) (rev TIMELINE) with
     | Some m => m
     | None => mkMarker 0 "Times Square Awakens"
     end).
  { intros elapsed. unfold activeMarker. apply scanMarkers_last. }
  assert (Hzero : activeMarker 0 = mkMarker 0 "Times Square Awakens").
  { rewrite Hgen. simpl.
    rewrite !geb_false by lra. rewrite geb_true by lra. reflexivity. }
  split; [reflexivity |].
  split; [exact Hgen |].
  split; [exact Hzero |].
  split.
  { rewrite Hgen. simpl.
    rewrite !geb_false by lra. rewrite geb_true by lra. reflexivity. }
  split.
  { rewrite Hgen. simpl.
    rewrite !geb_false by lra. rewrite geb_true by lra. reflexivity. }
  split.
  { rewrite Hgen. simpl. rewrite geb_true by lra. reflexivity. }
  intros start. unfold hudElapsed, TOTAL.
  replace (start + 45000 - start) with 45000 by lra.
  replace (45 * 1000) with 45000 by lra.
  assert (Hrem : 45000 %% 45000 = 0).
  { unfold Js.rem. replace (45000 / 45000) with 1 by lra.
    rewrite trunc_nonneg by lra.
    rewrite (Int_part_unique 1 1) by lra. lra. }
  rewrite Hrem. replace (0 / 1000) with 0 by lra. exact Hzero.
Qed.

End TimelineOverlay.

(** Equality of two traces, call by call and argument by argument; what is
    left are the equations between real arguments. *)
Ltac trace_eq :=
  repeat lazymatch goal with
         | |- @eq R _ _ => fail
         | |- _ = _ => f_equal
         end.

Section DrawPasses.

Variables (width height : R).
Variables (buildings : list Building) (billboards : list Billboard).

Local Abbreviation sceneAt t := (mkScene width height t buildings billboards).

Lemma easeInOut_0 : easeInOut 0 = 0.
Proof. unfold easeInOut. rewrite ltb_true by lra. lra. Qed.

Lemma easeInOut_1 : easeInOut 1 = 1.
Proof. unfold easeInOut. rewrite ltb_false by lra. lra. Qed.

Lemma drawShockwave_before (t : R) :
  t < 5 -> drawShockwave (sceneAt t) = skip.
Proof.
  intros Ht. unfold drawShockwave. rewrite ltb_true by lra. reflexivity.
Qed.

Lemma drawShockwave_active (t : R) :
  5 <= t ->
  drawShockwave (sceneAt t) =
  shockwaveRing width height
    (lerp 0 (Js.max width height * 1.2)
          (easeInOut (clamp ((t - 5) / (11 - 5)) 0 1))).
Proof.
  intros Ht. unfold drawShockwave, shockwaveRing.
  rewrite ltb_false by lra. reflexivity.
Qed.

(** C5. The Shockwave pass makes no call for [t < 5]; at [t = 5] it draws
    its zero-progress ring (eased progress 0, radius 0); at [t = 11] the
    radius is [max(width, height) * 1.2]; for [t > 11] the progress stays
    clamped at 1 and the radius stays at that value. *)
Theorem shockwave_window :
  (forall t : R, t < 5 -> drawShockwave (sceneAt t) = skip) /\
  (easeInOut (clamp ((5 - 5) / (11 - 5)) 0 1) = 0 /\
   drawShockwave (sceneAt 5) = shockwaveRing width height 0) /\
  drawShockwave (sceneAt 11) =
    shockwaveRing width height (Js.max width height * 1.2) /\
  (forall t : R, 11 < t ->
     clamp ((t - 5) / (11 - 5)) 0 1 = 1 /\
     drawShockwave (sceneAt t) =
       shockwaveRing width height (Js.max width height * 1.2)).
Proof.
  assert (Hfull : forall t : R, 11 <= t ->
            clamp ((t - 5) / (11 - 5)) 0 1 = 1 /\
            drawShockwave (sceneAt t) =
              shockwaveRing width height (Js.max width height * 1.2)).
  { intros t Ht.
    assert (Hc : clamp ((t - 5) / (11 - 5)) 0 1 = 1)
      by (apply clamp_above; lra).
    split; [exact Hc |].
    rewrite drawShockwave_active by lra.
    rewrite Hc, easeInOut_1. f_equal. unfold lerp. lra. }
  assert (Hzero : clamp ((5 - 5) / (11 - 5)) 0 1 = 0)
    by (replace ((5 - 5) / (11 - 5)) with 0 by lra; apply clamp_inside; lra).
  repeat split.
  - exact drawShockwave_before.
  - rewrite Hzero. apply easeInOut_0.
  - rewrite drawShockwave_active by lra.
    rewrite Hzero, easeInOut_0. f_equal. unfold lerp. lra.
  - apply Hfull. lra.
  - apply Hfull. lra.
  - apply Hfull. lra.
Qed.

Lemma drawMonsters_before (t : R) : t < 24 -> drawMonsters (sceneAt t) = skip.
Proof.
  intros Ht. unfold drawMonsters. rewrite ltb_true by lra. reflexivity.
Qed.

(** Past its gate the Monsters pass draws its three blobs, whatever [t]. *)
Lemma drawMonsters_ellipses (t : R) :
  24 <= t ->
  ellipses (drawMonsters (sceneAt t)) =
  [ monsterBlob (width * 0.12) (height * 0.5) 1.2 0 t;
    monsterBlob (width * 0.88) (height * 0.52) 1.1 0.8 t;
    monsterBlob (width * 0.5) (height * 0.18) 1.5 1.6 t ].
Proof.
  intros Ht. unfold drawMonsters, monsterBlob.
  rewrite ltb_false by lra.
  cbv [ellipses forEach forEachFrom forRange flat_map seq Nat.sub andThen
       call skip app monster_x monster_y monster_scale monster_hue].
  replace (INR 0 * 0.8) with 0 by (simpl; lra).
  replace (INR 1 * 0.8) with 0.8 by (simpl; lra).
  replace (INR 2 * 0.8) with 1.6 by (simpl; lra).
  reflexivity.
Qed.

(** C3 (amended). The Monsters pass makes no call for [t < 24]; from
    [t = 24] on, and in particular for every [t] in (44, 45), it draws its
    three blobs, the beam phase being clamped at 1 once [t] passes 44. *)
Theorem monsters_window :
  (forall t : R, t < 24 -> drawMonsters (sceneAt t) = skip) /\
  (forall t : R, 24 <= t ->
     ellipses (drawMonsters (sceneAt t)) =
     [ monsterBlob (width * 0.12) (height * 0.5) 1.2 0 t;
       monsterBlob (width * 0.88) (height * 0.52) 1.1 0.8 t;
       monsterBlob (width * 0.5) (height * 0.18) 1.5 1.6 t ]) /\
  (forall t : R, 44 < t ->
     clamp ((t - 24) / (44 - 24)) 0 1 = 1 /\
     drawMonsters (sceneAt t) <> skip).
Proof.
  split; [exact drawMonsters_before |].
  split; [exact drawMonsters_ellipses |].
  intros t Ht. split.
  - apply clamp_above; lra.
  - intros Hskip.
    pose proof (drawMonsters_ellipses t ltac:(lra)) as He.
    rewrite Hskip in He. discriminate He.
Qed.

(** The Shockwave pass has no absolute length: it scales with the frame. *)
Lemma drawShockwave_scales (k t : R) :
  0 < k ->
  drawShockwave (mkScene (k * width) (k * height) t buildings billboards) =
  map (scaleCall k) (drawShockwave (sceneAt t)).
Proof.
  intros Hk. unfold drawShockwave.
  destruct (Js.ltb t 5); [reflexivity |].
  unfold Js.max. rewrite (RmaxRmult width height k) by lra.
  cbv [map scaleCall scaleStyle scaleShape andThen call app shape stops
       createRadialGradient addColorStop lerp].
  trace_eq; lra.
Qed.

(** The Hero pass has no length relative to the frame: only its anchor
    [(width / 2, height * 0.65)] moves when the frame is resized. *)
Lemma drawHero_translates (k t : R) :
  drawHero (mkScene (k * width) (k * height) t buildings billboards) =
  map (translateCall ((k - 1) * width / 2) ((k - 1) * height * 0.65))
      (drawHero (sceneAt t)).
Proof.
  unfold drawHero, ballX.
  destruct (Js.gtb t 28); destruct (Js.gtb (ballRadius t) 0);
    cbv [map translateCall translateStyle translateShape andThen call app
         skip shape stops createRadialGradient addColorStop forRange
         flat_map seq Nat.sub];
    trace_eq; lra.
Qed.

Lemma forRange_length (from to n : nat) (body : nat -> Draw) :
  (forall i : nat, List.length (body i) = n) ->
  List.length (forRange from to body) = ((to - from) * n)%nat.
Proof.
  intros Hbody. unfold forRange.
  generalize (to - from)%nat as m. intros m. revert from.
  induction m as [| m IH]; intros from; simpl.
  - reflexivity.
  - rewrite length_app, Hbody, IH. reflexivity.
Qed.

(** The City pass draws, for one building, seven rows of
    [max(4, floor(w / 12))] windows, [w] being the building's width in
    pixels: the number of calls itself depends on the frame width. *)
Lemma drawCity_one_building_length (t : R) (building : Building) :
  List.length (drawCity (mkScene width height t [building] [])) =
  (6 + 7 * (Z.to_nat (Z.max 4 (Js.floor (b_width building * width / 12))) * 2))%nat.
Proof.
  unfold drawCity, forEach.
  cbn [forEachFrom]. unfold andThen, call, skip.
  cbn [List.length app]. rewrite !length_app. cbn [List.length].
  rewrite (forRange_length 1 8
             (Z.to_nat (Z.max 4 (Js.floor (b_width building * width / 12))) * 2)).
  - cbn [Nat.sub]. lia.
  - intros r. rewrite (forRange_length 0 _ 2).
    + rewrite Nat.sub_0_r. reflexivity.
    + intros c. reflexivity.
Qed.

(** The sixth call of a frame is the arc of the first star of the Sky
    pass; its radius does not mention the frame size. *)
Lemma renderFrame_first_star (t : R) :
  nth 5 (renderFrame (mkCanvas width height) t buildings billboards) Save =
  Arc (((INR 0 * 97.77) %% 1) * width)
      (((sin (INR 0 * 42.12 + t * 0.3) + 1) / 2) * height * 0.5)
      (((cos (INR 0 * 12.12 + t) + 1) / 2) * 1.5 + 0.5)
      0 (PI * 2).
Proof. reflexivity. Qed.

(** The third call of the Hero pass before [t = 28] is the arc of the body
    glow. *)
Lemma drawHero_glow_arc (t : R) :
  t <= 28 ->
  nth 2 (drawHero (sceneAt t)) Save =
  Arc (width / 2) (height * 0.65) (baseSize * (0.45 + heroPulse t * 0.1))
      0 (PI * 2).
Proof.
  intros Ht. unfold drawHero, Js.gtb.
  rewrite ltb_false by lra. reflexivity.
Qed.

(** C1 (amended). Anchors are normalized to the frame, sizes are not all:
    for every [t], layout and [k > 0], the Shockwave pass at
    [(k * width, k * height)] is the Shockwave pass at [(width, height)]
    scaled uniformly by [k], whereas the Hero pass is moved rigidly with
    its anchor and keeps its pixel sizes. *)
Theorem resize_geometry (k t : R) :
  0 < k ->
  drawShockwave (mkScene (k * width) (k * height) t buildings billboards) =
  map (scaleCall k) (drawShockwave (sceneAt t)) /\
  drawHero (mkScene (k * width) (k * height) t buildings billboards) =
  map (translateCall (k * width / 2 - width / 2)
                     (k * height * 0.65 - height * 0.65))
      (drawHero (sceneAt t)).
Proof.
  intros Hk. split.
  - apply drawShockwave_scales; exact Hk.
  - rewrite drawHero_translates. f_equal. f_equal; lra.
Qed.

End DrawPasses.

Lemma shockwave_window_witness :
  drawShockwave (mkScene 800 600 4 [] []) = skip /\
  clamp ((12 - 5) / (11 - 5)) 0 1 = 1.
Proof.
  destruct (shockwave_window 800 600 [] []) as (Hbefore & _ & _ & Hafter).
  split.
  - apply Hbefore. lra.
  - apply (Hafter 12). lra.
Defined.

Lemma monsters_window_witness :
  drawMonsters (mkScene 800 600 10 [] []) = skip /\
  drawMonsters (mkScene 800 600 44.5 [] []) <> skip.
Proof.
  destruct (monsters_window 800 600 [] []) as (Hbefore & _ & Hafter).
  split.
  - apply Hbefore. lra.
  - apply (Hafter 44.5). lra.
Defined.

(** C3 (as stated) fails: half a second after the end of the nominal
    window the Monsters pass still draws. *)
Lemma monsters_drawn_after_44 :
  44 < 44.5 < 45 /\
  drawMonsters (mkScene 800 600 44.5 (generateBuildings 45) generateBillboards)
  <> skip.
Proof.
  split; [lra |].
  intros Hskip.
  pose proof (drawMonsters_ellipses 800 600 (generateBuildings 45)
                generateBillboards 44.5 ltac:(lra)) as He.
  rewrite Hskip in He. discriminate He.
Qed.

Lemma resize_geometry_witness :
  drawShockwave (mkScene (2 * 800) (2 * 600) 6 [] []) =
  map (scaleCall 2) (drawShockwave (mkScene 800 600 6 [] [])) /\
  drawHero (mkScene (2 * 800) (2 * 600) 6 [] []) =
  map (translateCall (2 * 800 / 2 - 800 / 2) (2 * 600 * 0.65 - 600 * 0.65))
      (drawHero (mkScene 800 600 6 [] [])).
Proof. apply (resize_geometry 800 600 [] [] 2 6). lra. Defined.

(** C1 (as stated) fails: doubling the frame does not double the drawing.
    The first star of the Sky pass and the body glow of the Hero pass keep
    their radius. *)
Lemma resize_not_uniform :
  renderFrame (mkCanvas (2 * 800) (2 * 600)) 0
              (generateBuildings 45) generateBillboards <>
  map (scaleCall 2)
      (renderFrame (mkCanvas 800 600) 0 (generateBuildings 45) generateBillboards)
  /\
  drawHero (mkScene (2 * 800) (2 * 600) 0 (generateBuildings 45) generateBillboards)
  <>
  map (scaleCall 2)
      (drawHero (mkScene 800 600 0 (generateBuildings 45) generateBillboards)).
Proof.
  split; intros H.
  - apply (f_equal (fun l => nth 5 l Save)) in H.
    change Save with (scaleCall 2 Save) in H at 2.
    rewrite map_nth, !renderFrame_first_star in H.
    injection H as _ _ Hsize.
    match type of Hsize with
    | context [cos ?a] => pose proof (COS_bound a) as [Hc _]
    end.
    lra.
  - apply (f_equal (fun l => nth 2 l Save)) in H.
    change Save with (scaleCall 2 Save) in H at 2.
    rewrite map_nth, !drawHero_glow_arc in H by lra.
    injection H as _ _ Hradius.
    unfold baseSize, heroPulse in Hradius.
    match type of Hradius with
    | context [sin ?a] => pose proof (SIN_bound a) as [Hs _]
    end.
    lra.
Qed.

Section SceneGenerator.

(** *** Numeric bounds used to evaluate a seed *)

Lemma PI_lower : 3.1415926535 < PI.
Proof.
  pose proof (PI_2_3_7_ineq 4) as [Hlo _].
  unfold PI_2_3_7_tg, tg_alt, Ratan_seq in Hlo.
  simpl in Hlo. lra.
Qed.

Lemma PI_upper : PI < 3.141592654.
Proof.
  pose proof (PI_2_3_7_ineq 4) as [_ Hhi].
  unfold PI_2_3_7_tg, tg_alt, Ratan_seq in Hhi.
  simpl in Hhi. lra.
Qed.

Lemma INR_fact_values :
  INR (fact 1) = 1 /\ INR (fact 3) = 6 /\ INR (fact 5) = 120 /\
  INR (fact 7) = 5040 /\ INR (fact 9) = 362880.
Proof.
  repeat split; rewrite INR_IZR_INZ; apply f_equal; vm_compute; reflexivity.
Qed.

Lemma sin_lb_poly (a : R) :
  sin_lb a = a - a ^ 3 / 6 + a ^ 5 / 120 - a ^ 7 / 5040.
Proof.
  destruct INR_fact_values as (F1 & F3 & F5 & F7 & _).
  unfold sin_lb, sin_approx, sin_term.
  cbn [sum_f_R0 Nat.mul Nat.add].
  rewrite F1, F3, F5, F7. simpl pow. field.
Qed.

Lemma sin_ub_poly (a : R) :
  sin_ub a = a - a ^ 3 / 6 + a ^ 5 / 120 - a ^ 7 / 5040 + a ^ 9 / 362880.
Proof.
  destruct INR_fact_values as (F1 & F3 & F5 & F7 & F9).
  unfold sin_ub, sin_approx, sin_term.
  cbn [sum_f_R0 Nat.mul Nat.add].
  rewrite F1, F3, F5, F7, F9. simpl pow. field.
Qed.

(** [2 * 2245.929] lies about 0.6195 below [1430 * PI]. *)
Lemma sin_below_1430_PI :
  0.58062308 < sin (1430 * PI - 4491.858) < 0.5806269.
Proof.
  pose proof PI_lower as Hlo. pose proof PI_upper as Hhi.
  set (r := 1430 * PI - 4491.858).
  assert (Hr : 0.619494505 <= r <= 0.61949522) by (unfold r; lra).
  assert (HA : sin 0.619494505 <= sin r) by (apply sin_incr_1; lra).
  assert (HB : sin r <= sin 0.61949522) by (apply sin_incr_1; lra).
  pose proof (SIN 0.619494505 ltac:(lra) ltac:(lra)) as [HlbA _].
  pose proof (SIN 0.61949522 ltac:(lra) ltac:(lra)) as [_ HubB].
  rewrite sin_lb_poly in HlbA. rewrite sin_ub_poly in HubB.
  split; lra.
Qed.

(** The seed of the third building is negative: about -5806.2378. *)
Lemma buildingSeed_2 : -5806.269 < buildingSeed 2 < -5806.2308.
Proof.
  unfold buildingSeed.
  assert (Hsin : sin (INR 2 * 2245.929) = - sin (1430 * PI - 4491.858)).
  { rewrite <- sin_neg.
    rewrite <- (sin_period (- (1430 * PI - 4491.858)) 715).
    f_equal. rewrite (INR_IZR_INZ 715). simpl. lra. }
  rewrite Hsin.
  pose proof sin_below_1430_PI as [H1 H2].
  split; lra.
Qed.

(** *** The remainder of a negative dividend *)

Lemma rem_neg_between (x y : R) (k : Z) :
  0 < y -> x < 0 -> IZR k * y <= - x < (IZR k + 1) * y ->
  x %% y = x + y * IZR k.
Proof.
  intros Hy Hx [Hlo Hhi]. unfold Js.rem.
  assert (Hq : x / y < 0).
  { unfold Rdiv. assert (0 < / y) by (apply Rinv_0_lt_compat; lra). nra. }
  rewrite (trunc_neg _ Hq), opp_IZR.
  rewrite (Int_part_unique (- (x / y)) k).
  - lra.
  - replace (- (x / y)) with (- x / y) by (field; lra).
    split.
    + apply Rmult_le_reg_r with (r := y); [lra |].
      replace (- x / y * y) with (- x) by (field; lra). lra.
    + apply Rmult_lt_reg_r with (r := y); [lra |].
      replace (- x / y * y) with (- x) by (field; lra). lra.
Qed.

(** Where the seed is not negative the width and height are in their
    bands. *)
Lemma buildingAt_band (count i : nat) :
  0 <= buildingSeed i ->
  0.3 <= b_height (buildingAt count i) < 1.0 /\
  0.03 <= b_width (buildingAt count i) < 0.08.
Proof.
  intros Hs. unfold buildingAt. cbn [b_height b_width].
  destruct (rem_nonneg_bounds (buildingSeed i * 3.7) 0.7) as [H1 H2];
    [lra | lra |].
  destruct (rem_nonneg_bounds (buildingSeed i * 1.3) 0.05) as [H3 H4];
    [lra | lra |].
  lra.
Qed.

(** Where the seed is negative they are at or below the lower end. *)
Lemma buildingAt_below_band (count i : nat) :
  buildingSeed i < 0 ->
  -0.4 < b_height (buildingAt count i) <= 0.3 /\
  -0.02 < b_width (buildingAt count i) <= 0.03.
Proof.
  intros Hs. unfold buildingAt. cbn [b_height b_width].
  destruct (rem_neg_bounds (buildingSeed i * 3.7) 0.7) as [H1 H2];
    [lra | lra |].
  destruct (rem_neg_bounds (buildingSeed i * 1.3) 0.05) as [H3 H4];
    [lra | lra |].
  lra.
Qed.

Lemma generateBuildings_length (count : Z) :
  List.length (generateBuildings count) = Z.to_nat count.
Proof. unfold generateBuildings. rewrite length_map, length_seq. reflexivity. Qed.

(** C2. [generateBuildings count] has exactly [count] elements, but the
    bands do not hold: among the 45 buildings of the canvas the third has a
    height below 0.3 and a width below 0.03, because its seed is negative
    and [%] keeps the sign of the dividend. *)
Theorem generateBuildings_band_broken :
  (forall count : Z, List.length (generateBuildings count) = Z.to_nat count) /\
  exists b : Building,
    nth_error (generateBuildings 45) 2 = Some b /\
    b_height b < 0.3 /\ b_width b < 0.03.
Proof.
  split; [exact generateBuildings_length |].
  exists (buildingAt 45 2). split; [reflexivity |].
  pose proof buildingSeed_2 as [Hlo Hhi].
  unfold buildingAt. cbn [b_height b_width].
  rewrite (rem_neg_between (buildingSeed 2 * 3.7) 0.7 30690) by lra.
  rewrite (rem_neg_between (buildingSeed 2 * 1.3) 0.05 150962) by lra.
  lra.
Qed.

End SceneGenerator.

(* ------------------------------------------------------------------ *)
(** ** The passes on the store *)

Section StoreRefinement.

Variable scene : SceneContext.

Lemma Appends_emit (c : Call) : Appends (Stateful.emit c) scene (call c).
Proof. intros made. reflexivity. Qed.

Lemma Appends_nop : Appends Stateful.nop scene skip.
Proof. intros made. unfold Stateful.nop, skip. now rewrite app_nil_r. Qed.

Lemma Appends_andThen (a b : Effect) (da db : Draw) :
  Appends a scene da -> Appends b scene db ->
  Appends (Stateful.andThen a b) scene (da ;; db).
Proof.
  intros Ha Hb made. unfold Stateful.andThen, andThen.
  now rewrite Ha, Hb, app_assoc.
Qed.

Lemma Appends_withScene (body : SceneContext -> Effect) (d : Draw) :
  Appends (body scene) scene d -> Appends (Stateful.withScene body) scene d.
Proof. intros Hbody made. exact (Hbody made). Qed.

Lemma Appends_forRange (from to : nat) (body : nat -> Effect)
      (calls : nat -> Draw) :
  (forall i, Appends (body i) scene (calls i)) ->
  Appends (Stateful.forRange from to body) scene (forRange from to calls).
Proof.
  intros Hbody. unfold Stateful.forRange, forRange.
  generalize (to - from)%nat as n. intros n. revert from.
  induction n as [|n IH]; intros from made; simpl.
  - now rewrite app_nil_r.
  - now rewrite Hbody, IH, app_assoc.
Qed.

Lemma Appends_forEachAt {A : Type} (array : World -> list A)
      (body : A -> nat -> Effect) (calls : A -> nat -> Draw) :
  (forall item i, Appends (body item i) scene (calls item i)) ->
  forall (rest : list A) (index : nat),
    (forall made, skipn index (array (mkWorld made scene)) = rest) ->
    Appends (Stateful.forEachAt array index (List.length rest) body) scene
            (forEachFrom index rest calls).
Proof.
  intros Hbody rest. induction rest as [|item rest IH]; intros index Hrest made.
  - simpl. unfold Stateful.nop, skip. now rewrite app_nil_r.
  - simpl.
    assert (Hitem : nth_error (array (mkWorld made scene)) index = Some item).
    { rewrite <- (firstn_skipn index (array (mkWorld made scene))) at 1.
      rewrite Hrest.
      assert (Hlen : (index <= List.length (array (mkWorld made scene)))%nat).
      { destruct (Nat.le_gt_cases index
                    (List.length (array (mkWorld made scene)))) as [H|H]; auto.
        pose proof (Hrest made) as Hnone.
        rewrite skipn_all2 in Hnone by lia. discriminate Hnone. }
      rewrite nth_error_app2; rewrite length_firstn, Nat.min_l by exact Hlen;
        [ now rewrite Nat.sub_diag | lia ]. }
    rewrite Hitem, Hbody. unfold andThen.
    rewrite IH.
    + now rewrite app_assoc.
    + intros made'. specialize (Hrest made').
      rewrite <- (Nat.add_1_l index), <- skipn_skipn, Hrest. reflexivity.
Qed.

Lemma Appends_forEach {A : Type} (array : World -> list A) (items : list A)
      (body : A -> nat -> Effect) (calls : A -> nat -> Draw) :
  (forall made, array (mkWorld made scene) = items) ->
  (forall item i, Appends (body item i) scene (calls item i)) ->
  Appends (Stateful.forEach array body) scene (forEach items calls).
Proof.
  intros Harray Hbody made. unfold Stateful.forEach, forEach.
  rewrite Harray.
  now apply (Appends_forEachAt array body calls Hbody items 0%nat).
Qed.

Lemma Appends_forEachOf {A : Type} (items : list A)
      (body : A -> nat -> Effect) (calls : A -> nat -> Draw) :
  (forall item i, Appends (body item i) scene (calls item i)) ->
  Appends (Stateful.forEachOf items body) scene (forEach items calls).
Proof.
  intros Hbody. unfold Stateful.forEachOf, forEach.
  generalize 0%nat as index. induction items as [|item rest IH]; intros index.
  - apply Appends_nop.
  - simpl. apply Appends_andThen; [ apply Hbody | apply IH ].
Qed.

End StoreRefinement.

Ltac appends :=
  repeat lazymatch goal with
  | |- Appends (Stateful.emit _) _ (call _) => apply Appends_emit
  | |- Appends Stateful.nop _ skip => apply Appends_nop
  | |- Appends (Stateful.andThen _ _) _ (andThen _ _) => apply Appends_andThen
  | |- Appends (Stateful.forRange _ _ _) _ (forRange _ _ _) =>
      apply Appends_forRange; intros ?
  | |- Appends (Stateful.forEachOf _ _) _ (forEach _ _) =>
      apply Appends_forEachOf; intros ? ?
  | |- Appends (Stateful.forEach _ _) _ (forEach _ _) =>
      apply Appends_forEach; [ reflexivity | intros ? ? ]
  | |- Appends (if ?b then _ else _) _ (if ?b then _ else _) => destruct b
  end.

Ltac pass_appends program pass :=
  let scene := fresh "scene" in
  intros scene;
  destruct scene as [width height t buildings billboards];
  unfold program, pass;
  apply Appends_withScene;
  cbv beta iota zeta;
  appends.

Lemma drawSkies_appends :
  forall scene, Appends Stateful.drawSkies scene (drawSkies scene).
Proof. pass_appends Stateful.drawSkies drawSkies. Qed.

Lemma drawCity_appends :
  forall scene, Appends Stateful.drawCity scene (drawCity scene).
Proof. pass_appends Stateful.drawCity drawCity. Qed.

Lemma drawShockwave_appends :
  forall scene, Appends Stateful.drawShockwave scene (drawShockwave scene).
Proof. pass_appends Stateful.drawShockwave drawShockwave. Qed.

Lemma drawArena_appends :
  forall scene, Appends Stateful.drawArena scene (drawArena scene).
Proof. pass_appends Stateful.drawArena drawArena. Qed.

Lemma drawPortals_appends :
  forall scene, Appends Stateful.drawPortals scene (drawPortals scene).
Proof. pass_appends Stateful.drawPortals drawPortals. Qed.

Lemma drawMonsters_appends :
  forall scene, Appends Stateful.drawMonsters scene (drawMonsters scene).
Proof. pass_appends Stateful.drawMonsters drawMonsters. Qed.

Lemma drawHero_appends :
  forall scene, Appends Stateful.drawHero scene (drawHero scene).
Proof. pass_appends Stateful.drawHero drawHero. Qed.

Lemma drawEnergyFlows_appends :
  forall scene, Appends Stateful.drawEnergyFlows scene (drawEnergyFlows scene).
Proof. pass_appends Stateful.drawEnergyFlows drawEnergyFlows. Qed.

Lemma drawForegroundEffects_appends :
  forall scene,
    Appends Stateful.drawForegroundEffects scene (drawForegroundEffects scene).
Proof. pass_appends Stateful.drawForegroundEffects drawForegroundEffects. Qed.

(** Building the scene object is a write to the store: the new object has the
    frame's size and time value and refers to the same two arrays. *)
Lemma newScene_writes (width height tSeconds : R) (w : World) :
  Stateful.newScene width height tSeconds w =
  mkWorld (context w)
          (mkScene width height tSeconds
                   (buildings (sceneObject w)) (billboards (sceneObject w))).
Proof. reflexivity. Qed.

(** [Appends] tells a program that writes from one that only reads: storing
    another time value in the scene object is not an append, whatever calls
    are claimed for it. *)
Lemma Appends_excludes_write (scene : SceneContext) (d : Draw) :
  ~ Appends (Stateful.newScene (width scene) (height scene) (t scene + 1))
            scene d.
Proof.
  intros H. specialize (H []). rewrite newScene_writes in H.
  apply (f_equal (fun w => t (sceneObject w))) in H. simpl in H. lra.
Qed.

(** The calls of one tick on the store are those of [renderFrame] as a trace,
    made after the calls already on the context. *)
Lemma renderFrame_store_trace (canvas : HTMLCanvasElement) (tSeconds : R)
      (w : World) :
  context (Stateful.renderFrame canvas tSeconds w) =
  context w ++
  renderFrame canvas tSeconds
              (buildings (sceneObject w)) (billboards (sceneObject w)).
Proof.
  destruct w as [made before]. unfold Stateful.renderFrame, renderFrame.
  cbv beta zeta. unfold Stateful.andThen.
  change (Stateful.emit ?c (mkWorld made before))
    with (mkWorld (made ++ [c]) before).
  rewrite newScene_writes. cbn [context sceneObject].
  rewrite drawSkies_appends, drawCity_appends, drawShockwave_appends,
    drawArena_appends, drawPortals_appends, drawMonsters_appends,
    drawHero_appends, drawEnergyFlows_appends, drawForegroundEffects_appends.
  cbn [context]. unfold andThen, call. rewrite <- !app_assoc. reflexivity.
Qed.

(** C8. One tick of the frame renderer, run on any store, first clears the
    surface and then makes the calls of the nine passes in the order Sky,
    City, Shockwave, Arena, Portals, Monsters, Hero, Energy Flows, Foreground
    Effects, each pass run in the store that the one before it left; the
    scene object then holds the frame's size and time value and the layout
    arrays it started with.  Each pass program, run on any store, only adds
    its calls to the context: it leaves the time value, the two layout
    arrays and the rest of the scene object as it found them. *)
Theorem renderFrame_runs_passes (canvas : HTMLCanvasElement) (tSeconds : R)
        (w : World) :
  let scene :=
    mkScene (clientWidth canvas) (clientHeight canvas) tSeconds
            (buildings (sceneObject w)) (billboards (sceneObject w)) in
  Stateful.renderFrame canvas tSeconds w =
  mkWorld
    (context w ++
     ClearRect 0 0 (clientWidth canvas) (clientHeight canvas) ::
     drawSkies scene ++ drawCity scene ++ drawShockwave scene ++
     drawArena scene ++ drawPortals scene ++ drawMonsters scene ++
     drawHero scene ++ drawEnergyFlows scene ++ drawForegroundEffects scene)
    scene /\
  Forall2 (fun (program : Effect) (calls : SceneContext -> Draw) =>
             forall (made : Draw) (before : SceneContext),
               let after := program (mkWorld made before) in
               context after = made ++ calls before /\
               sceneObject after = before /\
               t (sceneObject after) = t before /\
               buildings (sceneObject after) = buildings before /\
               billboards (sceneObject after) = billboards before)
          [ Stateful.drawSkies; Stateful.drawCity; Stateful.drawShockwave;
            Stateful.drawArena; Stateful.drawPortals; Stateful.drawMonsters;
            Stateful.drawHero; Stateful.drawEnergyFlows;
            Stateful.drawForegroundEffects ]
          [ drawSkies; drawCity; drawShockwave; drawArena; drawPortals;
            drawMonsters; drawHero; drawEnergyFlows; drawForegroundEffects ].
Proof.
  intros scene. split.
  - destruct w as [made before]. unfold Stateful.renderFrame.
    cbv beta zeta. unfold Stateful.andThen.
    change (Stateful.emit ?c (mkWorld made before))
      with (mkWorld (made ++ [c]) before).
    rewrite newScene_writes. cbn [context sceneObject]. fold scene.
    rewrite drawSkies_appends, drawCity_appends, drawShockwave_appends,
      drawArena_appends, drawPortals_appends, drawMonsters_appends,
      drawHero_appends, drawEnergyFlows_appends,
      drawForegroundEffects_appends.
    f_equal. rewrite <- !app_assoc. reflexivity.
  - assert (Hreads : forall (program : Effect) (calls : SceneContext -> Draw),
               (forall scene', Appends program scene' (calls scene')) ->
               forall (made : Draw) (before : SceneContext),
                 let after := program (mkWorld made before) in
                 context after = made ++ calls before /\
                 sceneObject after = before /\
                 t (sceneObject after) = t before /\
                 buildings (sceneObject after) = buildings before /\
                 billboards (sceneObject after) = billboards before).
    { intros program calls Happ made before. cbv zeta.
      rewrite (Happ before made). cbn [context sceneObject].
      repeat split; reflexivity. }
    repeat first [ apply Forall2_nil | apply Forall2_cons; [ apply Hreads | ] ].
    + exact drawSkies_appends.
    + exact drawCity_appends.
    + exact drawShockwave_appends.
    + exact drawArena_appends.
    + exact drawPortals_appends.
    + exact drawMonsters_appends.
    + exact drawHero_appends.
    + exact drawEnergyFlows_appends.
    + exact drawForegroundEffects_appends.
Qed.

(* ------------------------------------------------------------------ *)
(** * Further properties of the code *)

Section ScalarHelpers.

(** X1. [clamp] with ordered bounds returns a value of [[lo, hi]], leaves
    the values of that interval alone and is monotone; with inverted bounds
    it returns the upper bound [hi] whatever the value. *)
Theorem clamp_behaviour (v lo hi : R) :
  (lo <= hi ->
     lo <= clamp v lo hi <= hi /\
     (lo <= v <= hi -> clamp v lo hi = v) /\
     (forall v' : R, v <= v' -> clamp v lo hi <= clamp v' lo hi)) /\
  (hi < lo -> clamp v lo hi = hi).
Proof.
  split.
  - intros Hb. split; [apply clamp_range; exact Hb |].
    split; [apply clamp_inside |].
    intros v' Hv. unfold clamp, Js.min, Js.max.
    apply Rle_min_compat_l. apply Rle_max_compat_l. exact Hv.
  - intros Hb. unfold clamp, Js.min, Js.max.
    apply Rmin_left. pose proof (Rmax_l lo v). lra.
Qed.

Lemma clamp_behaviour_witness :
  (0 <= clamp 2 0 1 <= 1 /\
   clamp (1 / 2) 0 1 = 1 / 2 /\
   clamp 2 0 1 <= clamp 3 0 1) /\
  clamp 5 1 0 = 0.
Proof.
  destruct (clamp_behaviour 2 0 1) as [Hord _].
  destruct (Hord ltac:(lra)) as (Hrange & _ & Hmono).
  destruct (clamp_behaviour (1 / 2) 0 1) as [Hord' _].
  destruct (Hord' ltac:(lra)) as (_ & Hfix & _).
  destruct (clamp_behaviour 5 1 0) as [_ Hinv].
  split; [split; [exact Hrange | split; [apply Hfix; lra | apply Hmono; lra]] |].
  apply Hinv. lra.
Defined.

Lemma easeInOut_low (t : R) : t < 0.5 -> easeInOut t = 4 * t * t * t.
Proof. intros H. unfold easeInOut. rewrite ltb_true by lra. reflexivity. Qed.

Lemma easeInOut_high (t : R) :
  0.5 <= t -> easeInOut t = 1 - (-2 * t + 2) ^ 3 / 2.
Proof. intros H. unfold easeInOut. rewrite ltb_false by lra. reflexivity. Qed.

Lemma cube_le (a b : R) : a <= b -> a * a * a <= b * b * b.
Proof.
  intros H.
  assert (Hq : 0 <= b * b + a * b + a * a) by nra.
  replace (b * b * b) with (a * a * a + (b - a) * (b * b + a * b + a * a))
    by ring.
  assert (0 <= (b - a) * (b * b + a * b + a * a)).
  { apply Rmult_le_pos; lra. }
  lra.
Qed.

Lemma easeInOut_monotone (t1 t2 : R) : t1 <= t2 -> easeInOut t1 <= easeInOut t2.
Proof.
  intros H.
  destruct (Rlt_dec t1 0.5) as [H1 | H1]; destruct (Rlt_dec t2 0.5) as [H2 | H2].
  - rewrite !easeInOut_low by lra. pose proof (cube_le t1 t2 H). lra.
  - rewrite easeInOut_low by lra. rewrite easeInOut_high by lra.
    pose proof (cube_le t1 (1 / 2) ltac:(lra)).
    pose proof (cube_le (-2 * t2 + 2) 1 ltac:(lra)).
    simpl pow. lra.
  - lra.
  - rewrite !easeInOut_high by lra.
    pose proof (cube_le (-2 * t2 + 2) (-2 * t1 + 2) ltac:(lra)).
    simpl pow. lra.
Qed.

Lemma easeInOut_symmetric (t : R) : easeInOut (1 - t) = 1 - easeInOut t.
Proof.
  destruct (Rlt_dec t 0.5) as [H | H].
  - rewrite (easeInOut_low t) by lra. rewrite easeInOut_high by lra.
    simpl pow. lra.
  - destruct (Req_dec t 0.5) as [E | E].
    + subst t. replace (1 - 0.5) with 0.5 by lra.
      rewrite easeInOut_high by lra. simpl pow. lra.
    + rewrite (easeInOut_high t) by lra. rewrite easeInOut_low by lra.
      simpl pow. lra.
Qed.

(** X2. The cubic easing fixes 0, 1/2 and 1, never decreases, is symmetric
    about the centre ([easeInOut (1 - t) = 1 - easeInOut t]), and therefore
    maps [[0, 1]] into [[0, 1]]. *)
Theorem easeInOut_shape :
  easeInOut 0 = 0 /\ easeInOut 0.5 = 0.5 /\ easeInOut 1 = 1 /\
  (forall t1 t2 : R, t1 <= t2 -> easeInOut t1 <= easeInOut t2) /\
  (forall t : R, easeInOut (1 - t) = 1 - easeInOut t) /\
  (forall t : R, 0 <= t <= 1 -> 0 <= easeInOut t <= 1).
Proof.
  assert (H0 : easeInOut 0 = 0) by (rewrite easeInOut_low by lra; lra).
  assert (H1 : easeInOut 1 = 1) by (rewrite easeInOut_high by lra; simpl pow; lra).
  split; [exact H0 |].
  split; [rewrite easeInOut_high by lra; simpl pow; lra |].
  split; [exact H1 |].
  split; [exact easeInOut_monotone |].
  split; [exact easeInOut_symmetric |].
  intros t [Ha Hb].
  pose proof (easeInOut_monotone 0 t Ha).
  pose proof (easeInOut_monotone t 1 Hb).
  lra.
Qed.

Lemma easeInOut_shape_witness :
  easeInOut (1 / 4) <= easeInOut (3 / 4) /\ 0 <= easeInOut (1 / 4) <= 1.
Proof.
  destruct easeInOut_shape as (_ & _ & _ & Hmono & _ & Hrange).
  split; [apply Hmono; lra | apply Hrange; lra].
Defined.

End ScalarHelpers.

Section LoopClockExtras.

Lemma wrapTime_shift (x L : R) (k : Z) :
  0 < L -> wrapTime (x + IZR k * L) L = wrapTime x L.
Proof.
  intros HL. rewrite !wrapTime_floor by exact HL.
  replace ((x + IZR k * L) / L) with (x / L + IZR k) by (field; lra).
  destruct (Int_part_bounds (x / L)) as [Hlo Hhi].
  rewrite (Int_part_unique (x / L + IZR k) (Int_part (x / L) + k)).
  - rewrite plus_IZR. lra.
  - rewrite plus_IZR. lra.
Qed.

Lemma wrapTime_idempotent (x L : R) :
  0 < L -> wrapTime (wrapTime x L) L = wrapTime x L.
Proof.
  intros HL. apply wrapTime_inside. apply wrapTime_range. exact HL.
Qed.

Lemma rem_nonneg_wrapTime (x L : R) :
  0 <= x -> 0 < L -> x %% L = wrapTime x L.
Proof.
  intros Hx HL. rewrite wrapTime_floor by exact HL.
  unfold Js.rem. rewrite trunc_nonneg by (apply div_nonneg; lra).
  reflexivity.
Qed.

(** X3. The wrapped time differs from its input by a whole number of loops;
    shifting the input by any whole number of loops, forwards or backwards,
    does not change it; wrapping twice is wrapping once. *)
Theorem wrapTime_loops (x L : R) (k : Z) :
  0 < L ->
  wrapTime (x + IZR k * L) L = wrapTime x L /\
  wrapTime (wrapTime x L) L = wrapTime x L /\
  exists n : Z, x = wrapTime x L + IZR n * L.
Proof.
  intros HL.
  split; [apply wrapTime_shift; exact HL |].
  split; [apply wrapTime_idempotent; exact HL |].
  exists (Int_part (x / L)). rewrite wrapTime_floor by exact HL. lra.
Qed.

Lemma wrapTime_loops_witness :
  wrapTime (100 + IZR (-3) * 45000) 45000 = wrapTime 100 45000 /\
  wrapTime (wrapTime 100 45000) 45000 = wrapTime 100 45000 /\
  exists n : Z, 100 = wrapTime 100 45000 + IZR n * 45000.
Proof. apply (wrapTime_loops 100 45000 (-3)). lra. Defined.

(** X4. As long as the timestamp is not earlier than the start, the overlay
    computes the same loop time as the frame renderer, a value of
    [[0, 45)] that whole loops later is the same again; for an earlier
    timestamp its single [%] gives a value of (-45, 0], where the renderer's
    [wrapTime] stays in [[0, 45)]. *)
Theorem hud_clock_agreement (now start : R) :
  (start <= now ->
     hudElapsed now start = wrapTime (now - start) TOTAL_DURATION / 1000 /\
     0 <= hudElapsed now start < 45 /\
     forall loops : nat,
       hudElapsed (now + INR loops * 45000) start = hudElapsed now start) /\
  (now < start -> -45 < hudElapsed now start <= 0).
Proof.
  unfold hudElapsed, TOTAL, TOTAL_DURATION.
  replace (45 * 1000) with 45000 by lra.
  split.
  - intros H.
    rewrite rem_nonneg_wrapTime by lra.
    split; [reflexivity |].
    split.
    + destruct (wrapTime_range (now - start) 45000) as [Hlo Hhi]; lra.
    + intros loops. pose proof (pos_INR loops) as Hk.
      rewrite rem_nonneg_wrapTime by nra.
      replace (now + INR loops * 45000 - start)
        with (now - start + IZR (Z.of_nat loops) * 45000)
        by (rewrite <- INR_IZR_INZ; lra).
      rewrite wrapTime_shift by lra. reflexivity.
  - intros H.
    destruct (rem_neg_bounds (now - start) 45000) as [Hlo Hhi]; lra.
Qed.

Lemma hud_clock_agreement_witness :
  (hudElapsed 50000 1000 = wrapTime (50000 - 1000) TOTAL_DURATION / 1000 /\
   0 <= hudElapsed 50000 1000 < 45 /\
   forall loops : nat,
     hudElapsed (50000 + INR loops * 45000) 1000 = hudElapsed 50000 1000) /\
  -45 < hudElapsed 1000 50000 <= 0.
Proof.
  split.
  - apply (proj1 (hud_clock_agreement 50000 1000)). lra.
  - apply (proj2 (hud_clock_agreement 1000 50000)). lra.
Defined.

(** X5. A tick depends on the timestamp only through the loop: the frame
    drawn a whole number of 45000 ms loops later or earlier is the same
    frame, and moving [start] and the timestamp together changes nothing. *)
Theorem draw_loops (canvas : HTMLCanvasElement) (start timestamp delta : R)
        (k : Z) (buildings : list Building) (billboards : list Billboard) :
  draw canvas start (timestamp + IZR k * 45000) buildings billboards =
  draw canvas start timestamp buildings billboards /\
  draw canvas (start + delta) (timestamp + delta) buildings billboards =
  draw canvas start timestamp buildings billboards.
Proof.
  unfold draw, TOTAL_DURATION. split.
  - replace (timestamp + IZR k * 45000 - start)
      with (timestamp - start + IZR k * 45000) by lra.
    rewrite wrapTime_shift by lra. reflexivity.
  - replace (timestamp + delta - (start + delta)) with (timestamp - start) by lra.
    reflexivity.
Qed.

End LoopClockExtras.

Section ShockwaveExtras.

Variables (width height : R).
Variables (buildings : list Building) (billboards : list Billboard).

(** X6. From [t = 5] on, in a frame whose larger side is not negative, the
    Shockwave pass draws one ring whose radius never decreases with [t] and
    stays within [[0, 1.2 * max(width, height)]]. *)
Theorem shockwave_radius_monotone (t1 t2 : R) :
  0 <= Js.max width height ->
  5 <= t1 <= t2 ->
  exists r1 r2 : R,
    drawShockwave (mkScene width height t1 buildings billboards) =
      shockwaveRing width height r1 /\
    drawShockwave (mkScene width height t2 buildings billboards) =
      shockwaveRing width height r2 /\
    0 <= r1 <= r2 /\ r2 <= Js.max width height * 1.2.
Proof.
  intros HM [H1 H2].
  set (p := fun t : R => easeInOut (clamp ((t - 5) / (11 - 5)) 0 1)).
  exists (lerp 0 (Js.max width height * 1.2) (p t1)),
         (lerp 0 (Js.max width height * 1.2) (p t2)).
  split; [apply drawShockwave_active; lra |].
  split; [apply drawShockwave_active; lra |].
  assert (Hc : forall t : R, 0 <= clamp ((t - 5) / (11 - 5)) 0 1 <= 1)
    by (intros t; apply clamp_range; lra).
  assert (Hp : forall t : R, 0 <= p t <= 1).
  { intros t. unfold p. destruct (Hc t) as [Ha Hb].
    pose proof (easeInOut_monotone 0 _ Ha) as Hlo.
    pose proof (easeInOut_monotone _ 1 Hb) as Hhi.
    rewrite easeInOut_0 in Hlo. rewrite easeInOut_1 in Hhi. lra. }
  assert (Hm : p t1 <= p t2).
  { unfold p. apply easeInOut_monotone.
    unfold clamp, Js.min, Js.max.
    apply Rle_min_compat_l. apply Rle_max_compat_l. lra. }
  destruct (Hp t1) as [Ha1 Hb1]. destruct (Hp t2) as [Ha2 Hb2].
  unfold lerp. nra.
Qed.

End ShockwaveExtras.

Lemma shockwave_radius_monotone_witness :
  exists r1 r2 : R,
    drawShockwave (mkScene 800 600 6 [] []) = shockwaveRing 800 600 r1 /\
    drawShockwave (mkScene 800 600 9 [] []) = shockwaveRing 800 600 r2 /\
    0 <= r1 <= r2 /\ r2 <= Js.max 800 600 * 1.2.
Proof.
  apply (shockwave_radius_monotone 800 600 [] [] 6 9).
  - unfold Js.max. pose proof (Rmax_l 800 600). lra.
  - lra.
Defined.

Section GeneratorExtras.

Lemma rem_bounds (x y : R) : 0 < y -> - y < x %% y < y.
Proof.
  intros Hy. destruct (Rle_dec 0 x) as [Hx | Hx].
  - destruct (rem_nonneg_bounds x y Hx Hy). lra.
  - destruct (rem_neg_bounds x y ltac:(lra) Hy). lra.
Qed.

Lemma buildingSeed_range (i : nat) : -10000 <= buildingSeed i <= 10000.
Proof.
  unfold buildingSeed. pose proof (SIN_bound (INR i * 2245.929)). lra.
Qed.

Lemma generateBuildings_In (count : Z) (b : Building) :
  In b (generateBuildings count) ->
  exists i : nat, (i < Z.to_nat count)%nat /\ b = buildingAt (Z.to_nat count) i.
Proof.
  unfold generateBuildings. intros H.
  apply in_map_iff in H. destruct H as (i & Hb & Hi).
  apply in_seq in Hi. exists i. split; [lia | symmetry; exact Hb].
Qed.

(** X7. Whatever the count, every generated building has its left edge in
    (-0.08, 1.03), a width in (-0.02, 0.08), a height in (-0.4, 1) and a
    light seed in [[0, 10000]].  Width and height can be negative; these are
    the bands the code keeps. *)
Theorem generateBuildings_bounds (count : Z) (b : Building) :
  In b (generateBuildings count) ->
  -0.08 < b_x b < 1.03 /\
  -0.02 < b_width b < 0.08 /\
  -0.4 < b_height b < 1 /\
  0 <= b_lightSeed b <= 10000.
Proof.
  intros H. apply generateBuildings_In in H. destruct H as (i & Hi & ->).
  set (n := Z.to_nat count) in *.
  unfold buildingAt. cbn [b_x b_width b_height b_lightSeed].
  pose proof (buildingSeed_range i) as Hs.
  pose proof (rem_bounds (buildingSeed i) 0.03 ltac:(lra)) as Hx.
  pose proof (rem_bounds (buildingSeed i * 1.3) 0.05 ltac:(lra)) as Hw.
  pose proof (rem_bounds (buildingSeed i * 3.7) 0.7 ltac:(lra)) as Hh.
  assert (Hn : 0 < INR n) by (apply lt_0_INR; lia).
  assert (Hfrac : 0 <= INR i / INR n < 1).
  { split.
    - apply div_nonneg; [apply pos_INR | exact Hn].
    - apply Rmult_lt_reg_r with (r := INR n); [exact Hn |].
      replace (INR i / INR n * INR n) with (INR i) by (field; lra).
      rewrite Rmult_1_l. apply lt_INR. exact Hi. }
  repeat split; try lra.
  - unfold Js.abs. apply Rabs_pos.
  - unfold Js.abs. apply Rabs_le. lra.
Qed.

Lemma generateBuildings_bounds_witness :
  -0.08 < b_x (buildingAt 45 2) < 1.03 /\
  -0.02 < b_width (buildingAt 45 2) < 0.08 /\
  -0.4 < b_height (buildingAt 45 2) < 1 /\
  0 <= b_lightSeed (buildingAt 45 2) <= 10000.
Proof.
  apply (generateBuildings_bounds 45 (buildingAt 45 2)).
  unfold generateBuildings.
  apply (in_map (buildingAt (Z.to_nat 45))). apply in_seq.
  vm_compute. split; [apply le_S, le_S, le_n |].
  repeat constructor.
Defined.

Lemma billboardAt_bounds (index : nat) :
  0.1 <= bb_x (billboardAt index) < 0.74 /\
  -0.26 < bb_y (billboardAt index) < 0.46 /\
  -0.1 < bb_width (billboardAt index) < 0.3 /\
  -0.04 < bb_height (billboardAt index) < 0.2 /\
  - (PI / 6) < bb_rotation (billboardAt index) < PI / 6.
Proof.
  unfold billboardAt. cbn [bb_x bb_y bb_width bb_height bb_rotation].
  set (seed := cos (INR index * 512.42) * 9999).
  pose proof (rem_nonneg_bounds (Js.abs seed) 0.8 (Rabs_pos seed) ltac:(lra)) as Hx.
  pose proof (rem_bounds (seed * 0.53) 0.6 ltac:(lra)) as Hy.
  pose proof (rem_bounds (seed * 1.2) 0.2 ltac:(lra)) as Hw.
  pose proof (rem_bounds (seed * 0.91) 0.12 ltac:(lra)) as Hh.
  pose proof (rem_bounds seed PI PI_RGT_0) as Hr.
  repeat split; lra.
Qed.

(** X8. There are always six billboards.  Each has its left edge in
    [[0.1, 0.74)], thanks to the absolute value taken before [%]; the other
    fields take the sign of the seed: top edge in (-0.26, 0.46), width in
    (-0.1, 0.3), height in (-0.04, 0.2), rotation within a sixth of [PI]
    either way. *)
Theorem generateBillboards_bounds :
  List.length generateBillboards = 6%nat /\
  forall board : Billboard,
    In board generateBillboards ->
    0.1 <= bb_x board < 0.74 /\
    -0.26 < bb_y board < 0.46 /\
    -0.1 < bb_width board < 0.3 /\
    -0.04 < bb_height board < 0.2 /\
    - (PI / 6) < bb_rotation board < PI / 6.
Proof.
  split; [reflexivity |].
  intros board H. unfold generateBillboards in H.
  apply in_map_iff in H. destruct H as (index & <- & _).
  apply billboardAt_bounds.
Qed.

Lemma generateBillboards_bounds_witness :
  0.1 <= bb_x (billboardAt 3) < 0.74 /\
  -0.26 < bb_y (billboardAt 3) < 0.46 /\
  -0.1 < bb_width (billboardAt 3) < 0.3 /\
  -0.04 < bb_height (billboardAt 3) < 0.2 /\
  - (PI / 6) < bb_rotation (billboardAt 3) < PI / 6.
Proof.
  apply (proj2 generateBillboards_bounds (billboardAt 3)).
  unfold generateBillboards. simpl. right. right. right. left. reflexivity.
Defined.

End GeneratorExtras.

Section OverlayExtras.

(** The active marker on each stretch of the timeline. *)
Lemma activeMarker_cases (elapsed : R) :
  (elapsed < 5 -> activeMarker elapsed = mkMarker 0 "Times Square Awakens") /\
  (5 <= elapsed < 12 -> activeMarker elapsed = mkMarker 5 "Shockwave Kick") /\
  (12 <= elapsed < 20 ->
     activeMarker elapsed = mkMarker 12 "Arena Transformation") /\
  (20 <= elapsed < 28 -> activeMarker elapsed = mkMarker 20 "Superhero Allies") /\
  (28 <= elapsed < 38 -> activeMarker elapsed = mkMarker 28 "Monster Siege") /\
  (38 <= elapsed -> activeMarker elapsed = mkMarker 38 "Final Mega Kick").
Proof.
  unfold activeMarker. rewrite scanMarkers_last. simpl.
  repeat split; intros H.
  - rewrite !(geb_false elapsed) by lra.
    destruct (Js.geb elapsed 0); reflexivity.
  - rewrite !(geb_false elapsed) by lra. rewrite geb_true by lra. reflexivity.
  - rewrite !(geb_false elapsed) by lra. rewrite geb_true by lra. reflexivity.
  - rewrite !(geb_false elapsed) by lra. rewrite geb_true by lra. reflexivity.
  - rewrite !(geb_false elapsed) by lra. rewrite geb_true by lra. reflexivity.
  - rewrite geb_true by lra. reflexivity.
Qed.

(** Splits on the stretch of the timeline that holds [e] and rewrites the
    active marker there. *)
Ltac on_stretch e :=
  let A0 := fresh "A" in let A1 := fresh "A" in let A2 := fresh "A" in
  let A3 := fresh "A" in let A4 := fresh "A" in let A5 := fresh "A" in
  destruct (activeMarker_cases e) as (A0 & A1 & A2 & A3 & A4 & A5);
  destruct (Rlt_dec e 5);
    [rewrite (A0 ltac:(lra)) in * |
  destruct (Rlt_dec e 12);
    [rewrite (A1 ltac:(lra)) in * |
  destruct (Rlt_dec e 20);
    [rewrite (A2 ltac:(lra)) in * |
  destruct (Rlt_dec e 28);
    [rewrite (A3 ltac:(lra)) in * |
  destruct (Rlt_dec e 38);
    [rewrite (A4 ltac:(lra)) in * |
     rewrite (A5 ltac:(lra)) in * ]]]]];
  clear A0 A1 A2 A3 A4 A5.

(** Closes a goal with the bound that a maximality hypothesis [Hmax] gives
    for one of the six views. *)
Ltac reached Hm := simpl in Hm; specialize (Hm ltac:(lra)); lra.

Ltac by_reached_view Hmax :=
  let Hm := fresh "Hm" in
  first
    [ solve [pose proof (Hmax _ (or_introl eq_refl)) as Hm; reached Hm]
    | solve [pose proof (Hmax _ (or_intror (or_introl eq_refl))) as Hm;
             reached Hm]
    | solve [pose proof (Hmax _ (or_intror (or_intror (or_introl eq_refl))))
               as Hm; reached Hm]
    | solve [pose proof
               (Hmax _ (or_intror (or_intror (or_intror (or_introl eq_refl)))))
               as Hm; reached Hm]
    | solve [pose proof
               (Hmax _ (or_intror (or_intror (or_intror (or_intror
                          (or_introl eq_refl))))))
               as Hm; reached Hm]
    | solve [pose proof
               (Hmax _ (or_intror (or_intror (or_intror (or_intror
                          (or_intror (or_introl eq_refl)))))))
               as Hm; reached Hm] ].

(** X9. The active marker is always one of the six markers (the first one
    for a negative elapsed time); for a non-negative elapsed time it is the
    marker with the greatest time not after it; and it never moves backwards
    as the elapsed time grows. *)
Theorem activeMarker_tracks_time (elapsed : R) :
  In (activeMarker elapsed) TIMELINE /\
  (elapsed < 0 -> activeMarker elapsed = mkMarker 0 "Times Square Awakens") /\
  (0 <= elapsed ->
     time (activeMarker elapsed) <= elapsed /\
     forall m : Marker,
       In m TIMELINE -> time m <= elapsed -> time m <= time (activeMarker elapsed)) /\
  (forall later : R,
     elapsed <= later -> time (activeMarker elapsed) <= time (activeMarker later)).
Proof.
  split; [| split; [| split]].
  - on_stretch elapsed; simpl; tauto.
  - intros H. apply (proj1 (activeMarker_cases elapsed)). lra.
  - intros H0. split.
    + on_stretch elapsed; simpl; lra.
    + intros m Hm Hle.
      on_stretch elapsed; simpl in Hm;
        repeat (destruct Hm as [<- | Hm]; [simpl in *; lra |]);
        contradiction.
  - intros later Hle.
    on_stretch elapsed; on_stretch later; simpl; lra.
Qed.

Lemma activeMarker_tracks_time_witness :
  activeMarker (-1) = mkMarker 0 "Times Square Awakens" /\
  time (activeMarker 13) <= 13 /\
  time (activeMarker 13) <= time (activeMarker 30).
Proof.
  destruct (activeMarker_tracks_time (-1)) as (_ & Hneg & _).
  destruct (activeMarker_tracks_time 13) as (_ & _ & Hpos & Hmono).
  split; [apply Hneg; lra |].
  split; [apply Hpos; lra | apply Hmono; lra].
Defined.

(** X10. The rendered timeline flags exactly one marker as active, the one
    with the active marker's label.  For an elapsed time in [[0, 45)] every
    marker sits in [[0, 100)] per cent of the track, the tracker bar is
    shorter than the track, and a marker is flagged exactly when it is the
    rightmost one that the tracker bar has reached. *)
Theorem hudTimeline_active (elapsed : R) :
  map view_label (filter view_active (hudTimeline elapsed)) =
    [label (activeMarker elapsed)] /\
  (0 <= elapsed < 45 ->
     0 <= hudTracker elapsed < 100 /\
     forall v : MarkerView,
       In v (hudTimeline elapsed) ->
       0 <= view_left v < 100 /\
       (view_active v = true <->
        view_left v <= hudTracker elapsed /\
        forall v' : MarkerView,
          In v' (hudTimeline elapsed) ->
          view_left v' <= hudTracker elapsed -> view_left v' <= view_left v)).
Proof.
  split.
  - unfold hudTimeline. on_stretch elapsed; reflexivity.
  - intros He. unfold hudTracker, TOTAL. split; [lra |].
    intros v Hv. unfold hudTimeline, TOTAL in *.
    on_stretch elapsed; simpl in Hv;
      repeat (destruct Hv as [<- | Hv]; [
        simpl; split; [lra |]; split;
        [ intros Hact;
          first
            [ discriminate Hact
            | split; [lra |];
              intros v' Hv' Hreach;
              repeat (destruct Hv' as [<- | Hv']; [simpl in *; lra |]);
              contradiction ]
        | intros [Hreach Hmax];
          first [reflexivity | exfalso; first [lra | by_reached_view Hmax]] ] |]).
    all: contradiction.
Qed.

Lemma hudTimeline_active_witness :
  0 <= hudTracker 13 < 100 /\
  forall v : MarkerView,
    In v (hudTimeline 13) ->
    0 <= view_left v < 100 /\
    (view_active v = true <->
     view_left v <= hudTracker 13 /\
     forall v' : MarkerView,
       In v' (hudTimeline 13) ->
       view_left v' <= hudTracker 13 -> view_left v' <= view_left v).
Proof. apply (proj2 (hudTimeline_active 13)). lra. Defined.

End OverlayExtras.

Section Scoping.

Lemma scopeCheck_app (a b : Draw) (depth : nat) :
  scopeCheck (a ++ b) depth =
  match scopeCheck a depth with
  | Some after => scopeCheck b after
  | None => None
  end.
Proof.
  revert depth. induction a as [| c a IH]; intros depth; [reflexivity |].
  destruct c; destruct depth; cbn [app scopeCheck sticky];
    try apply IH; reflexivity.
Qed.

Lemma scopeCheck_plain (c : Call) (rest : Draw) (depth : nat) :
  sticky c = false -> c <> Save -> c <> Restore ->
  scopeCheck (c :: rest) depth = scopeCheck rest depth.
Proof.
  intros Hs H1 H2.
  destruct c; try discriminate Hs; try congruence; destruct depth; reflexivity.
Qed.

Lemma scopeCheck_inside (c : Call) (rest : Draw) (depth : nat) :
  c <> Save -> c <> Restore ->
  scopeCheck (c :: rest) (S depth) = scopeCheck rest (S depth).
Proof. intros H1 H2. destruct c; try congruence; reflexivity. Qed.

Lemma Balanced_Scoped (d : Draw) : Balanced d -> Scoped d.
Proof. intros H depth. apply H. Qed.

Lemma Balanced_flat_map {A : Type} (f : A -> Draw) (l : list A) :
  (forall x : A, Balanced (f x)) -> Balanced (flat_map f l).
Proof.
  intros Hf. induction l as [| x l IH]; intros depth; simpl.
  - reflexivity.
  - rewrite scopeCheck_app, Hf. apply IH.
Qed.

Lemma Scoped_flat_map {A : Type} (f : A -> Draw) (l : list A) :
  (forall x : A, Scoped (f x)) -> Scoped (flat_map f l).
Proof.
  intros Hf. induction l as [| x l IH]; intros depth; simpl.
  - reflexivity.
  - rewrite scopeCheck_app, Hf. apply IH.
Qed.

Lemma Balanced_forRange (from to : nat) (body : nat -> Draw) :
  (forall i : nat, Balanced (body i)) -> Balanced (forRange from to body).
Proof. intros H. unfold forRange. apply Balanced_flat_map. exact H. Qed.

Lemma Scoped_forRange (from to : nat) (body : nat -> Draw) :
  (forall i : nat, Scoped (body i)) -> Scoped (forRange from to body).
Proof. intros H. unfold forRange. apply Scoped_flat_map. exact H. Qed.

Lemma Balanced_forEach {A : Type} (items : list A) (body : A -> nat -> Draw) :
  (forall (item : A) (index : nat), Balanced (body item index)) ->
  Balanced (forEach items body).
Proof.
  intros H. unfold forEach. generalize 0%nat as index.
  induction items as [| item rest IH]; intros index depth; cbn [forEachFrom].
  - reflexivity.
  - unfold andThen. rewrite scopeCheck_app, H. apply IH.
Qed.

Lemma Scoped_forEach {A : Type} (items : list A) (body : A -> nat -> Draw) :
  (forall (item : A) (index : nat), Scoped (body item index)) ->
  Scoped (forEach items body).
Proof.
  intros H. unfold forEach. generalize 0%nat as index.
  induction items as [| item rest IH]; intros index depth; cbn [forEachFrom].
  - reflexivity.
  - unfold andThen. rewrite scopeCheck_app, H. apply IH.
Qed.

End Scoping.

(** Runs [scopeCheck] symbolically along the statements of a pass. *)
Ltac scope_tac :=
  unfold andThen, call, skip;
  repeat
    match goal with
    | |- Balanced _ => intros ?
    | |- Scoped _ => intros ?
    | |- Some _ = Some _ => reflexivity
    | |- scopeCheck [] _ = _ => reflexivity
    | |- scopeCheck ((_ :: _) ++ _) _ = _ => rewrite <- app_comm_cons
    | |- scopeCheck ([] ++ _) _ = _ => rewrite app_nil_l
    | |- scopeCheck ((_ ++ _) ++ _) _ = _ => rewrite <- app_assoc
    | |- scopeCheck (Save :: _) _ = _ => cbn [scopeCheck]
    | |- scopeCheck (Restore :: _) (S _) = _ => cbn [scopeCheck]
    | |- scopeCheck (_ :: _) (S _) = _ =>
        rewrite scopeCheck_inside by discriminate
    | |- scopeCheck (_ :: _) _ = _ =>
        rewrite scopeCheck_plain by (reflexivity || discriminate)
    | |- scopeCheck (forRange ?a ?b ?f) ?n = _ =>
        rewrite <- (app_nil_r (forRange a b f))
    | |- scopeCheck (forEach ?l ?f) ?n = _ =>
        rewrite <- (app_nil_r (forEach l f))
    | |- scopeCheck (forRange ?a ?b ?f ++ _) (S ?n) = _ =>
        let H := fresh "Hloop" in
        assert (H : Scoped (forRange a b f))
          by (apply Scoped_forRange; intros ?; scope_tac);
        rewrite scopeCheck_app, (H n); clear H
    | |- scopeCheck (forEach ?l ?f ++ _) (S ?n) = _ =>
        let H := fresh "Hloop" in
        assert (H : Scoped (forEach l f))
          by (apply Scoped_forEach; intros ? ?; scope_tac);
        rewrite scopeCheck_app, (H n); clear H
    | |- scopeCheck (forRange ?a ?b ?f ++ _) ?n = _ =>
        let H := fresh "Hloop" in
        assert (H : Balanced (forRange a b f))
          by (apply Balanced_forRange; intros ?; scope_tac);
        rewrite scopeCheck_app, (H n); clear H
    | |- scopeCheck (forEach ?l ?f ++ _) ?n = _ =>
        let H := fresh "Hloop" in
        assert (H : Balanced (forEach l f))
          by (apply Balanced_forEach; intros ? ?; scope_tac);
        rewrite scopeCheck_app, (H n); clear H
    end.

Section PassScoping.

Lemma drawSkies_balanced (scene : SceneContext) : Balanced (drawSkies scene).
Proof. destruct scene. unfold drawSkies. scope_tac. Qed.

Lemma drawCity_balanced (scene : SceneContext) : Balanced (drawCity scene).
Proof. destruct scene. unfold drawCity. scope_tac. Qed.

Lemma drawShockwave_balanced (scene : SceneContext) :
  Balanced (drawShockwave scene).
Proof.
  destruct scene as [w h t bs bbs]. unfold drawShockwave.
  destruct (Js.ltb t 5); scope_tac.
Qed.

Lemma drawArena_balanced (scene : SceneContext) : Balanced (drawArena scene).
Proof.
  destruct scene as [w h t bs bbs]. unfold drawArena.
  destruct (Js.ltb t 9); scope_tac.
Qed.

Lemma drawPortals_balanced (scene : SceneContext) : Balanced (drawPortals scene).
Proof.
  destruct scene as [w h t bs bbs]. unfold drawPortals.
  destruct (Js.ltb t 18); scope_tac.
Qed.

Lemma drawMonsters_balanced (scene : SceneContext) :
  Balanced (drawMonsters scene).
Proof.
  destruct scene as [w h t bs bbs]. unfold drawMonsters.
  destruct (Js.ltb t 24); scope_tac.
Qed.

Lemma drawHero_balanced (scene : SceneContext) : Balanced (drawHero scene).
Proof.
  destruct scene as [w h t bs bbs]. unfold drawHero.
  destruct (Js.gtb t 28); destruct (Js.gtb (ballRadius t) 0); scope_tac.
Qed.

Lemma drawEnergyFlows_balanced (scene : SceneContext) :
  Balanced (drawEnergyFlows scene).
Proof. destruct scene. unfold drawEnergyFlows. scope_tac. Qed.

Lemma drawForegroundEffects_balanced (scene : SceneContext) :
  Balanced (drawForegroundEffects scene).
Proof.
  destruct scene as [w h t bs bbs]. unfold drawForegroundEffects.
  destruct (Js.ltb t 38); scope_tac.
Qed.

(** X11. Whatever the time, the frame size and the layout lists, each of
    the nine passes, run from any save depth and in particular outside every
    save, never restores more than it saved, ends at the depth it started
    from, and changes the transform, the global alpha, the compositing mode,
    the font, the text alignment and the shadow only between a save and a
    restore of its own: none of these settings leaks from one pass into the
    next.  The whole frame, which runs the passes outside every save after
    clearing the surface, passes the same check, so none leaks out of the
    frame either. *)
Theorem renderFrame_scoped (canvas : HTMLCanvasElement) (tSeconds : R)
        (buildings : list Building) (billboards : list Billboard) :
  Forall (fun pass : SceneContext -> Draw =>
            forall (scene : SceneContext) (depth : nat),
              scopeCheck (pass scene) depth = Some depth)
         [ drawSkies; drawCity; drawShockwave; drawArena; drawPortals;
           drawMonsters; drawHero; drawEnergyFlows; drawForegroundEffects ] /\
  scopeCheck (renderFrame canvas tSeconds buildings billboards) 0 = Some 0%nat.
Proof.
  split.
  - repeat constructor; intros scene.
    + apply drawSkies_balanced.
    + apply drawCity_balanced.
    + apply drawShockwave_balanced.
    + apply drawArena_balanced.
    + apply drawPortals_balanced.
    + apply drawMonsters_balanced.
    + apply drawHero_balanced.
    + apply drawEnergyFlows_balanced.
    + apply drawForegroundEffects_balanced.
  - unfold renderFrame, andThen, call. cbn [app].
    rewrite scopeCheck_plain by (reflexivity || discriminate).
    rewrite scopeCheck_app, drawSkies_balanced.
    rewrite scopeCheck_app, drawCity_balanced.
    rewrite scopeCheck_app, drawShockwave_balanced.
    rewrite scopeCheck_app, drawArena_balanced.
    rewrite scopeCheck_app, drawPortals_balanced.
    rewrite scopeCheck_app, drawMonsters_balanced.
    rewrite scopeCheck_app, drawHero_balanced.
    rewrite scopeCheck_app, drawEnergyFlows_balanced.
    apply drawForegroundEffects_balanced.
Qed.

End PassScoping.

Section PassWindows.

Variables (width height : R).
Variables (buildings : list Building) (billboards : list Billboard).

Local Abbreviation sceneAt t := (mkScene width height t buildings billboards).

Lemma gate_skip (t start : R) (body : Draw) :
  body <> skip ->
  ((if Js.ltb t start then skip else body) = skip <-> t < start).
Proof.
  intros Hbody. unfold Js.ltb.
  destruct (Rlt_dec t start) as [H | H]; split; intros H'; try reflexivity;
    try assumption; try contradiction.
Qed.

(** X12. Every windowed pass is silent exactly before its start time:
    Shockwave before 5 s, Arena before 9 s, Portals before 18 s, Monsters
    before 24 s, Foreground Effects before 38 s; from its start on it always
    makes calls.  Before [t = 5] a frame is therefore the clear followed by
    the Sky, City, Hero and Energy Flows passes only. *)
Theorem pass_gates (t : R) :
  (drawShockwave (sceneAt t) = skip <-> t < 5) /\
  (drawArena (sceneAt t) = skip <-> t < 9) /\
  (drawPortals (sceneAt t) = skip <-> t < 18) /\
  (drawMonsters (sceneAt t) = skip <-> t < 24) /\
  (drawForegroundEffects (sceneAt t) = skip <-> t < 38) /\
  (t < 5 ->
     renderFrame (mkCanvas width height) t buildings billboards =
     ClearRect 0 0 width height ::
     drawSkies (sceneAt t) ++ drawCity (sceneAt t) ++
     drawHero (sceneAt t) ++ drawEnergyFlows (sceneAt t)).
Proof.
  assert (G1 : drawShockwave (sceneAt t) = skip <-> t < 5).
  { unfold drawShockwave. apply gate_skip. discriminate. }
  assert (G2 : drawArena (sceneAt t) = skip <-> t < 9).
  { unfold drawArena. apply gate_skip. discriminate. }
  assert (G3 : drawPortals (sceneAt t) = skip <-> t < 18).
  { unfold drawPortals. apply gate_skip. discriminate. }
  assert (G4 : drawMonsters (sceneAt t) = skip <-> t < 24).
  { unfold drawMonsters. apply gate_skip. discriminate. }
  assert (G5 : drawForegroundEffects (sceneAt t) = skip <-> t < 38).
  { unfold drawForegroundEffects. apply gate_skip. discriminate. }
  repeat (split; [assumption |]).
  intros Ht. unfold renderFrame, andThen, call. cbn [clientWidth clientHeight app].
  rewrite (proj2 G1), (proj2 G2), (proj2 G3), (proj2 G4), (proj2 G5) by lra.
  unfold skip. cbn [app]. rewrite app_nil_r. reflexivity.
Qed.

(** Past [t = 31] every portal is at full progress, whatever its delay. *)
Lemma portal_progress_full (t delay : R) :
  31 <= t -> 0 <= delay < 13 ->
  clamp ((t - 18 - delay) / (31 - 18 - delay)) 0 1 = 1.
Proof.
  intros Ht Hd. apply clamp_above; [| lra].
  apply Rmult_le_reg_r with (r := 31 - 18 - delay); [lra |].
  replace ((t - 18 - delay) / (31 - 18 - delay) * (31 - 18 - delay))
    with (t - 18 - delay) by (field; lra).
  lra.
Qed.

(** X13. From [t = 31] on the four portals are at full size: their
    silhouettes are the ellipses of radii 50 by 90 at the four fixed
    positions.  Each portal's delay is taken off the duration it is
    divided by, so the late ones catch up exactly at 31 s. *)
Theorem portals_full_at_31 (t : R) :
  31 <= t ->
  ellipses (drawPortals (sceneAt t)) =
  [ (width * 0.22, height * 0.45, 50, 90);
    (width * 0.78, height * 0.46, 50, 90);
    (width * 0.35, height * 0.25, 50, 90);
    (width * 0.65, height * 0.2, 50, 90) ].
Proof.
  intros Ht. unfold drawPortals.
  rewrite ltb_false by lra.
  cbv [ellipses forEach forEachFrom forRange flat_map seq Nat.sub andThen
       call skip app portal_x portal_y portal_hue portal_label].
  rewrite (portal_progress_full t (INR 0 * 0.5)) by (simpl; lra).
  rewrite (portal_progress_full t (INR 1 * 0.5)) by (simpl; lra).
  rewrite (portal_progress_full t (INR 2 * 0.5)) by (simpl; lra).
  rewrite (portal_progress_full t (INR 3 * 0.5)) by (simpl; lra).
  trace_eq; lra.
Qed.

(** X14. Monsters do not catch up: their delay is not taken off the
    duration.  At the end of the nominal window, for [44 <= t < 45], the
    first blob has its full size 158.4; the second, delayed by 0.8 s, is
    between 142 and its full size 145.2 and has the full size exactly from
    44.8 s on; only the third, delayed by 1.6 s, does not reach its full
    size 198 inside the loop: it stays between 189 and 195, and would reach
    198 only at 45.6 s, after the loop has wrapped. *)
Theorem monsters_late_growth (t : R) :
  44 <= t < 45 ->
  exists s2 s3 : R,
    ellipses (drawMonsters (sceneAt t)) =
    [ (width * 0.12, height * 0.5, 158.4, 158.4 * 0.75);
      (width * 0.88, height * 0.52, s2, s2 * 0.75);
      (width * 0.5, height * 0.18, s3, s3 * 0.75) ] /\
    142 <= s2 <= 145.2 /\ (s2 = 145.2 <-> 44.8 <= t) /\
    189 <= s3 < 195.
Proof.
  intros Ht.
  exists (120 * 1.1 * (0.5 + clamp ((t - 24 - 0.8) / (44 - 24)) 0 1 * 0.6)),
         (120 * 1.5 * (0.5 + clamp ((t - 24 - 1.6) / (44 - 24)) 0 1 * 0.6)).
  split.
  - rewrite drawMonsters_ellipses by lra. unfold monsterBlob.
    rewrite (clamp_above ((t - 24 - 0) / (44 - 24))) by lra.
    trace_eq; lra.
  - rewrite (clamp_inside ((t - 24 - 1.6) / (44 - 24))) by lra.
    destruct (Rle_dec 44.8 t) as [Hfull | Hpart].
    + rewrite (clamp_above ((t - 24 - 0.8) / (44 - 24))) by lra.
      repeat split; intros; lra.
    + rewrite (clamp_inside ((t - 24 - 0.8) / (44 - 24))) by lra.
      repeat split; intros; lra.
Qed.

End PassWindows.

Lemma pass_gates_witness :
  renderFrame (mkCanvas 800 600) 2 [] [] =
  ClearRect 0 0 800 600 ::
  drawSkies (mkScene 800 600 2 [] []) ++ drawCity (mkScene 800 600 2 [] []) ++
  drawHero (mkScene 800 600 2 [] []) ++ drawEnergyFlows (mkScene 800 600 2 [] []).
Proof.
  destruct (pass_gates 800 600 [] [] 2) as (_ & _ & _ & _ & _ & Hearly).
  apply Hearly. lra.
Defined.

Lemma portals_full_at_31_witness :
  ellipses (drawPortals (mkScene 800 600 40 [] [])) =
  [ (800 * 0.22, 600 * 0.45, 50, 90);
    (800 * 0.78, 600 * 0.46, 50, 90);
    (800 * 0.35, 600 * 0.25, 50, 90);
    (800 * 0.65, 600 * 0.2, 50, 90) ].
Proof. apply (portals_full_at_31 800 600 [] [] 40). lra. Defined.

Lemma monsters_late_growth_witness :
  exists s2 s3 : R,
    ellipses (drawMonsters (mkScene 800 600 44.5 [] [])) =
    [ (800 * 0.12, 600 * 0.5, 158.4, 158.4 * 0.75);
      (800 * 0.88, 600 * 0.52, s2, s2 * 0.75);
      (800 * 0.5, 600 * 0.18, s3, s3 * 0.75) ] /\
    142 <= s2 <= 145.2 /\ (s2 = 145.2 <-> 44.8 <= 44.5) /\
    189 <= s3 < 195.
Proof. apply (monsters_late_growth 800 600 [] [] 44.5). lra. Defined.

Section TraceInvariants.

Lemma Forall_forEach {A : Type} (P : Call -> Prop) (items : list A)
      (body : A -> nat -> Draw) :
  (forall (item : A) (index : nat), Forall P (body item index)) ->
  Forall P (forEach items body).
Proof.
  intros H. unfold forEach. generalize 0%nat as index.
  induction items as [| item rest IH]; intros index; cbn [forEachFrom].
  - constructor.
  - unfold andThen. apply Forall_app. split; [apply H | apply IH].
Qed.

Lemma Forall_forRange (P : Call -> Prop) (from to : nat) (body : nat -> Draw) :
  (forall i : nat, Forall P (body i)) -> Forall P (forRange from to body).
Proof.
  intros H. unfold forRange. apply Forall_flat_map.
  apply Forall_forall. intros i _. apply H.
Qed.

Lemma Forall_selected {B : Type} (select : Call -> list B)
      (P : Call -> Prop) (Q : B -> Prop) (d : Draw) :
  (forall c : Call, P c -> Forall Q (select c)) ->
  Forall P d -> Forall Q (flat_map select d).
Proof.
  intros Hsel Hd. apply Forall_flat_map.
  apply Forall_forall. intros c Hc. apply Hsel.
  rewrite Forall_forall in Hd. apply Hd. exact Hc.
Qed.

End TraceInvariants.

(** Bounds of the clamped and oscillating terms of a goal. *)
Ltac bound_terms :=
  unfold heroPulse in *;
  repeat match goal with
         | |- context [clamp ?v 0 1] =>
             lazymatch goal with
             | _ : 0 <= clamp v 0 1 <= 1 |- _ => fail
             | _ => pose proof (clamp_range v 0 1 ltac:(lra))
             end
         | |- context [sin ?a] =>
             lazymatch goal with
             | _ : -1 <= sin a <= 1 |- _ => fail
             | _ => pose proof (SIN_bound a)
             end
         | |- context [cos ?a] =>
             lazymatch goal with
             | _ : -1 <= cos a <= 1 |- _ => fail
             | _ => pose proof (COS_bound a)
             end
         end.

(** Proves a property of every call of a pass along its statements; the
    calls the property constrains are left to [finish]. *)
Ltac trace_forall finish :=
  unfold andThen, call, skip;
  repeat match goal with
         | |- Forall _ [] => constructor
         | |- Forall _ (_ :: _) => constructor; [hnf; try exact I; finish |]
         | |- Forall _ (forRange _ _ _) => apply Forall_forRange; intros ?
         | |- Forall _ (forEach _ _) => apply Forall_forEach; intros ? ?
         | |- Forall _ (_ ++ _) => apply Forall_app; split
         end.

Section GlobalAlpha.

Ltac alpha_tac := trace_forall ltac:(bound_terms; lra).

Lemma drawSkies_alpha scene : Forall alphaInRange (drawSkies scene).
Proof. destruct scene. unfold drawSkies. alpha_tac. Qed.

Lemma drawCity_alpha scene : Forall alphaInRange (drawCity scene).
Proof. destruct scene. unfold drawCity. alpha_tac. Qed.

Lemma drawShockwave_alpha scene : Forall alphaInRange (drawShockwave scene).
Proof.
  destruct scene as [w h t bs bbs]. unfold drawShockwave.
  destruct (Js.ltb t 5); alpha_tac.
Qed.

Lemma drawArena_alpha scene : Forall alphaInRange (drawArena scene).
Proof.
  destruct scene as [w h t bs bbs]. unfold drawArena.
  destruct (Js.ltb t 9); alpha_tac.
Qed.

Lemma drawPortals_alpha scene : Forall alphaInRange (drawPortals scene).
Proof.
  destruct scene as [w h t bs bbs]. unfold drawPortals.
  destruct (Js.ltb t 18); alpha_tac.
Qed.

Lemma drawMonsters_alpha scene : Forall alphaInRange (drawMonsters scene).
Proof.
  destruct scene as [w h t bs bbs]. unfold drawMonsters.
  destruct (Js.ltb t 24); alpha_tac.
Qed.

Lemma drawHero_alpha scene : Forall alphaInRange (drawHero scene).
Proof.
  destruct scene as [w h t bs bbs]. unfold drawHero.
  destruct (Js.gtb t 28); destruct (Js.gtb (ballRadius t) 0); alpha_tac.
Qed.

Lemma drawEnergyFlows_alpha scene : Forall alphaInRange (drawEnergyFlows scene).
Proof. destruct scene. unfold drawEnergyFlows. alpha_tac. Qed.

Lemma drawForegroundEffects_alpha scene :
  Forall alphaInRange (drawForegroundEffects scene).
Proof.
  destruct scene as [w h t bs bbs]. unfold drawForegroundEffects.
  destruct (Js.ltb t 38); alpha_tac.
Qed.

(** X15. Whatever the time, the frame size and the layout lists, every
    value a frame gives to [globalAlpha] lies in [[0.25, 1]]: the clamped
    progress terms and the sine pulses never push it out of the range the
    canvas accepts. *)
Theorem renderFrame_globalAlpha (canvas : HTMLCanvasElement) (tSeconds : R)
        (buildings : list Building) (billboards : list Billboard) :
  Forall (fun a : R => 0.25 <= a <= 1)
         (globalAlphas (renderFrame canvas tSeconds buildings billboards)).
Proof.
  unfold globalAlphas.
  apply (Forall_selected _ alphaInRange).
  - intros c Hc. destruct c; cbn; try constructor; [exact Hc | constructor].
  - unfold renderFrame, andThen.
    apply Forall_app; split; [repeat constructor |].
    apply Forall_app; split; [apply drawSkies_alpha |].
    apply Forall_app; split; [apply drawCity_alpha |].
    apply Forall_app; split; [apply drawShockwave_alpha |].
    apply Forall_app; split; [apply drawArena_alpha |].
    apply Forall_app; split; [apply drawPortals_alpha |].
    apply Forall_app; split; [apply drawMonsters_alpha |].
    apply Forall_app; split; [apply drawHero_alpha |].
    apply Forall_app; split; [apply drawEnergyFlows_alpha |].
    apply drawForegroundEffects_alpha.
Qed.

End GlobalAlpha.

Section SkyAndHero.

Variables (width height : R).
Variables (buildings : list Building) (billboards : list Billboard).

Local Abbreviation sceneAt t := (mkScene width height t buildings billboards).

Lemma drawSkies_starInFrame (t : R) :
  0 < width -> 0 <= height -> Forall (starInFrame width height) (drawSkies (sceneAt t)).
Proof.
  intros Hw Hh. unfold drawSkies.
  trace_forall ltac:(idtac).
  match goal with
  | |- context [(INR ?i * 97.77) %% 1] =>
      pose proof (rem_nonneg_bounds (INR i * 97.77) 1
                    ltac:(pose proof (pos_INR i); lra) ltac:(lra)) as Hp
  end.
  bound_terms.
  repeat split; try lra; try nra.
Qed.

(** X16. In a frame of positive width and non-negative height the Sky pass
    draws exactly 120 stars, each centred inside the top half of the frame
    and of radius between 0.5 and 2 pixels, whatever the time. *)
Theorem drawSkies_stars (t : R) :
  0 < width -> 0 <= height ->
  List.length (arcs (drawSkies (sceneAt t))) = 120%nat /\
  Forall (fun star : R * R * R =>
            let '(x, y, radius) := star in
            0 <= x < width /\ 0 <= y <= height * 0.5 /\ 0.5 <= radius <= 2)
         (arcs (drawSkies (sceneAt t))).
Proof.
  intros Hw Hh. split.
  - reflexivity.
  - unfold arcs. apply (Forall_selected _ (starInFrame width height)).
    + intros c Hc. destruct c; cbn; try constructor; [exact Hc | constructor].
    + apply drawSkies_starInFrame; assumption.
Qed.

Lemma ballRadius_factor (t : R) : 0 < baseSize * (0.16 + heroPulse t * 0.02) <= 28.8.
Proof.
  unfold baseSize, heroPulse. pose proof (SIN_bound (t * 8)). lra.
Qed.

Lemma holdingPhase_positive (t : R) : 0 < holdingPhase t <-> 0 < t < 45.
Proof.
  unfold holdingPhase.
  destruct (Rlt_dec t 5) as [H5 | H5].
  - rewrite ltb_true by lra.
    destruct (Rle_dec t 0) as [H0 | H0].
    + rewrite clamp_below by lra. lra.
    + rewrite clamp_inside by lra. lra.
  - rewrite ltb_false by lra.
    destruct (Rlt_dec t 40) as [H40 | H40].
    + rewrite ltb_true by lra. lra.
    + rewrite ltb_false by lra.
      destruct (Rle_dec 45 t) as [H45 | H45].
      * rewrite clamp_below by lra. lra.
      * rewrite clamp_inside by lra. lra.
Qed.

Lemma holdingPhase_range (t : R) : 0 <= holdingPhase t <= 1.
Proof.
  unfold holdingPhase.
  destruct (Js.ltb t 5); [apply clamp_range; lra |].
  destruct (Js.ltb t 40); [lra | apply clamp_range; lra].
Qed.

Lemma ballRadius_positive (t : R) : 0 < ballRadius t <-> 0 < t < 45.
Proof.
  rewrite <- holdingPhase_positive. unfold ballRadius.
  pose proof (ballRadius_factor t) as [Hf _].
  pose proof (holdingPhase_range t) as [Hp _].
  split; intros H.
  - destruct Hp as [Hp | Hp]; [exact Hp |].
    rewrite <- Hp in H. lra.
  - apply Rmult_lt_0_compat; assumption.
Qed.

(** X17. The held ball has a radius of at most 28.8 pixels and is drawn
    exactly when [0 < t < 45]: then the Hero pass draws eight arcs (body
    glow, head, ball and its five energy arcs); at [t = 0], the instant the
    loop restarts, and outside the loop it draws only the glow and the
    head. *)
Theorem drawHero_ball (t : R) :
  0 <= ballRadius t <= 28.8 /\
  (0 < ballRadius t <-> 0 < t < 45) /\
  List.length (arcs (drawHero (sceneAt t))) =
    (if Js.gtb (ballRadius t) 0 then 8%nat else 2%nat) /\
  (Js.gtb (ballRadius t) 0 = true <-> 0 < t < 45).
Proof.
  split.
  - unfold ballRadius.
    pose proof (ballRadius_factor t) as [Hf1 Hf2].
    pose proof (holdingPhase_range t) as [Hp1 Hp2].
    split; [apply Rmult_le_pos; lra | nra].
  - split; [apply ballRadius_positive |].
    split.
    + unfold drawHero.
      destruct (Js.gtb t 28); destruct (Js.gtb (ballRadius t) 0); reflexivity.
    + rewrite <- ballRadius_positive. unfold Js.gtb, Js.ltb.
      destruct (Rlt_dec 0 (ballRadius t)); split; intros H;
        try reflexivity; try assumption; try discriminate; contradiction.
Qed.

End SkyAndHero.

Lemma drawHero_ball_witness :
  0 < ballRadius 10 /\ Js.gtb (ballRadius 10) 0 = true.
Proof.
  destruct (drawHero_ball 800 600 [] [] 10) as (_ & Hpos & _ & Hgt).
  split; [apply Hpos; lra | apply Hgt; lra].
Defined.

Lemma drawSkies_stars_witness :
  List.length (arcs (drawSkies (mkScene 800 600 3 [] []))) = 120%nat /\
  Forall (fun star : R * R * R =>
            let '(x, y, radius) := star in
            0 <= x < 800 /\ 0 <= y <= 600 * 0.5 /\ 0.5 <= radius <= 2)
         (arcs (drawSkies (mkScene 800 600 3 [] []))).
Proof. apply (drawSkies_stars 800 600 [] [] 3); lra. Defined.

Section CityCalls.

Lemma forEachFrom_length {A : Type} (size : A -> nat) (items : list A)
      (body : A -> nat -> Draw) (index : nat) :
  (forall (item : A) (i : nat), List.length (body item i) = size item) ->
  List.length (forEachFrom index items body) = list_sum (map size items).
Proof.
  intros H. revert index.
  induction items as [| item rest IH]; intros index; cbn [forEachFrom].
  - reflexivity.
  - unfold andThen. rewrite length_app, H, IH. reflexivity.
Qed.

(** X18. The City pass makes 4 calls of its own, 9 per billboard and, per
    building, 2 plus 14 per window column, the number of columns being
    [max(4, floor(w / 12))] for a building [w] pixels wide: never fewer than
    four columns, also for a building of zero or negative width. *)
Theorem drawCity_calls (width height t : R)
        (buildings : list Building) (billboards : list Billboard) :
  List.length (drawCity (mkScene width height t buildings billboards)) =
  (4 + list_sum (map (fun building =>
                        2 + 14 * Z.to_nat (windowCols width building))
                     buildings)
     + 9 * List.length billboards)%nat /\
  forall building : Building, (4 <= windowCols width building)%Z.
Proof.
  split.
  - unfold drawCity, forEach, andThen, call.
    cbn [app List.length]. rewrite !length_app.
    rewrite (forEachFrom_length
               (fun building => 2 + 14 * Z.to_nat (windowCols width building)))%nat.
    + rewrite (forEachFrom_length (fun _ : Billboard => 9%nat)).
      * cbn [List.length].
        assert (Hsum : forall l : list Billboard,
                  list_sum (map (fun _ : Billboard => 9%nat) l)
                  = (9 * List.length l)%nat).
        { induction l as [| x l IH]; simpl; [reflexivity | rewrite IH; lia]. }
        rewrite Hsum. lia.
      * intros board index. reflexivity.
    + intros building index. unfold andThen, call.
      cbn [app List.length].
      rewrite (forRange_length 1 8 (Z.to_nat (windowCols width building) * 2)).
      * cbn [Nat.sub]. lia.
      * intros r. rewrite (forRange_length 0 _ 2).
        -- rewrite Nat.sub_0_r. reflexivity.
        -- intros c. reflexivity.
  - intros building. unfold windowCols. apply Z.le_max_l.
Qed.

End CityCalls.

Section SeedSign.

Lemma buildingSeed_0 : buildingSeed 0 = 0.
Proof.
  unfold buildingSeed. simpl INR. rewrite Rmult_0_l, sin_0. lra.
Qed.

(** X19. The sign of a building's seed decides its bands: with a
    non-negative seed the height is in [[0.3, 1)] and the width in
    [[0.03, 0.08)]; with a negative seed the height is in (-0.4, 0.3] and the
    width in (-0.02, 0.03]. *)
Theorem building_bands_by_seed (count i : nat) :
  (0 <= buildingSeed i ->
     0.3 <= b_height (buildingAt count i) < 1.0 /\
     0.03 <= b_width (buildingAt count i) < 0.08) /\
  (buildingSeed i < 0 ->
     -0.4 < b_height (buildingAt count i) <= 0.3 /\
     -0.02 < b_width (buildingAt count i) <= 0.03).
Proof.
  split; [apply buildingAt_band | apply buildingAt_below_band].
Qed.

Lemma building_bands_by_seed_witness :
  (0.3 <= b_height (buildingAt 45 0) < 1.0 /\
   0.03 <= b_width (buildingAt 45 0) < 0.08) /\
  (-0.4 < b_height (buildingAt 45 2) <= 0.3 /\
   -0.02 < b_width (buildingAt 45 2) <= 0.03).
Proof.
  split.
  - apply (proj1 (building_bands_by_seed 45 0)). rewrite buildingSeed_0. lra.
  - apply (proj2 (building_bands_by_seed 45 2)).
    pose proof buildingSeed_2. lra.
Defined.

End SeedSign.

Section ForegroundImpact.

Variables (width height : R).
Variables (buildings : list Building) (billboards : list Billboard).

Lemma sqrt3_bounds : 1.73 < sqrt 3 < 1.74.
Proof.
  assert (H3 : 0 <= sqrt 3) by apply sqrt_pos.
  assert (Hsq : sqrt 3 * sqrt 3 = 3) by (apply sqrt_def; lra).
  split.
  - destruct (Rlt_dec 1.73 (sqrt 3)) as [H | H]; [exact H | exfalso; nra].
  - destruct (Rlt_dec (sqrt 3) 1.74) as [H | H]; [exact H | exfalso; nra].
Qed.

Lemma beamAngle_cos_sin : cos (- PI / 6) = sqrt 3 / 2 /\ sin (- PI / 6) = - (1 / 2).
Proof.
  replace (- PI / 6) with (- (PI / 6)) by lra.
  rewrite cos_neg, sin_neg, cos_PI6, sin_PI6. split; lra.
Qed.

(** X20. From [t = 38] on the Foreground pass draws a single arc, the
    impact flash.  In a frame of positive width its centre lies beyond the
    right edge, at more than 1.19 times the width, and 0.4 times the width
    above the hero's anchor line; its radius lies in [[120, 300]]. *)
Theorem impact_flash_off_frame (t : R) :
  0 < width -> 38 <= t ->
  exists x radius : R,
    arcs (drawForegroundEffects (mkScene width height t buildings billboards)) =
      [ (x, height * 0.65 - width * 0.4, radius) ] /\
    1.19 * width < x /\ 120 <= radius <= 300.
Proof.
  intros Hw Ht.
  destruct beamAngle_cos_sin as [Hcos Hsin].
  exists (width / 2 + sqrt 3 / 2 * (width * 0.8)),
         (120 + clamp ((t - 38) / 7) 0 1 * 180).
  split; [| split].
  - unfold drawForegroundEffects. rewrite ltb_false by lra.
    cbv [arcs forRange flat_map seq Nat.sub andThen call skip app].
    rewrite Hcos, Hsin. trace_eq; lra.
  - pose proof sqrt3_bounds. nra.
  - pose proof (clamp_range ((t - 38) / 7) 0 1 ltac:(lra)). lra.
Qed.

End ForegroundImpact.

Lemma impact_flash_off_frame_witness :
  exists x radius : R,
    arcs (drawForegroundEffects (mkScene 800 600 40 [] [])) =
      [ (x, 600 * 0.65 - 800 * 0.4, radius) ] /\
    1.19 * 800 < x /\ 120 <= radius <= 300.
Proof. apply (impact_flash_off_frame 800 600 [] [] 40); lra. Defined.
